(** * rehype-styling: a shallow embedding of the plugin and its properties

    The plugin visits the text nodes of a hast tree.  A text value that
    starts with [{...}] carries an annotation: the annotation is parsed
    ([parseAttributes]), removed from the text, the text node is dropped
    when nothing is left of it, a target element is chosen
    ([getTargetElement]) and the parsed classes, id, attributes and style
    are merged into it ([applyAttributes]).

    Strings are JavaScript strings: sequences of UTF-16 code units, here
    [list N].  Objects used as maps are association lists in insertion
    order.  The tree is a value; a reference to a node of the tree is a
    position in it ([TargetRef]), so that writing through the reference
    rewrites the tree at that position. *)

From Stdlib Require Import String Ascii NArith Arith Bool Lia List.
Import ListNotations.

Set Warnings "-register-all".

(** ** Strings *)

Definition char := N.
Definition jsstring := list char.

Definition str (s : string) : jsstring :=
  map N_of_ascii (list_ascii_of_string s).

Definition ch_tab : char := 9%N.
Definition ch_space : char := 32%N.
Definition ch_dquote : char := 34%N.
Definition ch_hash : char := 35%N.
Definition ch_squote : char := 39%N.
Definition ch_dot : char := 46%N.
Definition ch_colon : char := 58%N.
Definition ch_semicolon : char := 59%N.
Definition ch_equals : char := 61%N.
Definition ch_lbrace : char := 123%N.
Definition ch_rbrace : char := 125%N.

(** ECMAScript WhiteSpace and LineTerminator code units: what [trim]
    strips and what [\s] matches. *)
Definition isWhiteSpace (c : char) : bool :=
  ((9 <=? c) && (c <=? 13) || (c =? 32) || (c =? 160) || (c =? 5760)
   || (8192 <=? c) && (c <=? 8202) || (c =? 8232) || (c =? 8233)
   || (c =? 8239) || (c =? 8287) || (c =? 12288) || (c =? 65279))%N.

Fixpoint string_eqb (a b : jsstring) : bool :=
  match a, b with
  | [], [] => true
  | x :: a', y :: b' => N.eqb x y && string_eqb a' b'
  | _, _ => false
  end.

Fixpoint dropWhile (p : char -> bool) (s : jsstring) : jsstring :=
  match s with
  | [] => []
  | c :: s' => if p c then dropWhile p s' else s
  end.

Definition trimStart (s : jsstring) : jsstring := dropWhile isWhiteSpace s.
Definition trimEnd (s : jsstring) : jsstring := rev (dropWhile isWhiteSpace (rev s)).
Definition trim (s : jsstring) : jsstring := trimEnd (trimStart s).

Definition startsWith (c : char) (s : jsstring) : bool :=
  match s with
  | [] => false
  | x :: _ => N.eqb x c
  end.

Definition endsWith (c : char) (s : jsstring) : bool :=
  match rev s with
  | [] => false
  | x :: _ => N.eqb x c
  end.

Definition includes (c : char) (s : jsstring) : bool :=
  existsb (N.eqb c) s.

(** [token.slice(1)] *)
Definition slice1 (s : jsstring) : jsstring := tl s.

(** [pieces.join(sep)] *)
Fixpoint join (sep : jsstring) (pieces : list jsstring) : jsstring :=
  match pieces with
  | [] => []
  | [p] => p
  | p :: rest => p ++ sep ++ join sep rest
  end.

(** [s.split(c)] for a one-character separator: the pieces between the
    occurrences of [c], empty ones included. *)
Fixpoint split (c : char) (s : jsstring) : list jsstring :=
  match s with
  | [] => [[]]
  | x :: s' =>
      if N.eqb x c then [] :: split c s'
      else match split c s' with
           | [] => [[x]]
           | p :: ps => (x :: p) :: ps
           end
  end.

(** ** The annotation pattern: an opening brace at offset 0, any
    characters other than a closing brace (the capture group), a closing
    brace *)

(** The capture group and the closing brace at the head of [s]: the
    captured run and what follows the brace, or nothing when no closing
    brace exists. *)
Fixpoint captureToClose (s : jsstring) : option (jsstring * jsstring) :=
  match s with
  | [] => None
  | c :: s' =>
      if N.eqb c ch_rbrace then Some ([], s')
      else match captureToClose s' with
           | Some (body, rest) => Some (c :: body, rest)
           | None => None
           end
  end.

(** [value.match(attributeRegex)] and [value.replace(attributeRegex, '')]
    in one: the capture group [match[1]] and the value without the
    matched prefix. *)
Definition attributeRegex (value : jsstring) : option (jsstring * jsstring) :=
  match value with
  | [] => None
  | c :: s => if N.eqb c ch_lbrace then captureToClose s else None
  end.


(** ** Objects used as maps

    A JavaScript object with string keys: an association list with one
    entry per key, in insertion order.  [set] overwrites in place and
    appends a new key at the end, so that the entries come in the order
    the keys were first written.  JavaScript lists the keys that are
    array indices before the others; the statements below read objects
    through [get], where the order of the entries does not show. *)

Definition key_proto : jsstring := Eval cbv in str "__proto__".

Section Objects.
Variable V : Type.

Definition object := list (jsstring * V).

Fixpoint get (key : jsstring) (o : object) : option V :=
  match o with
  | [] => None
  | (k, v) :: o' => if string_eqb k key then Some v else get key o'
  end.

Fixpoint set (key : jsstring) (v : V) (o : object) : object :=
  match o with
  | [] => [(key, v)]
  | (k, w) :: o' =>
      if string_eqb k key then (k, v) :: o' else (k, w) :: set key v o'
  end.

Definition keys (o : object) : list jsstring := map fst o.

(** [o[key] = v] for a computed key and a string [v].  A plain object
    inherits the accessor [__proto__]; its setter ignores a value that
    is not an object, and no property is made.  Any other key becomes or
    stays a property of the object. *)
Definition assign (key : jsstring) (v : V) (o : object) : object :=
  if string_eqb key key_proto then o else set key v o.
End Objects.

Arguments get {V} key o.
Arguments set {V} key v o.
Arguments keys {V} o.
Arguments assign {V} key v o.

(** ** parseAttributes *)

Record ParsedAttributes := {
  classes : list jsstring;
  id : option jsstring;
  attributes : object jsstring
}.

(** *** The tokenizer: [attributeString.match(/(?:[^\s"']+|"[^"]*"|'[^']*')+/g) ?? []] *)

(** A character of the first alternative: neither white space nor a quote. *)
Definition isPlain (c : char) : bool :=
  negb (isWhiteSpace c) && negb (N.eqb c ch_dquote) && negb (N.eqb c ch_squote).

Fixpoint span (p : char -> bool) (s : jsstring) : jsstring * jsstring :=
  match s with
  | [] => ([], [])
  | c :: s' =>
      if p c then let (run, rest) := span p s' in (c :: run, rest)
      else ([], s)
  end.

(** The second and third alternatives: a quote [q], characters other
    than [q], a quote [q]. *)
Definition quotedRun (q : char) (s : jsstring) : option (jsstring * jsstring) :=
  match s with
  | [] => None
  | c :: s' =>
      if N.eqb c q then
        match span (fun x => negb (N.eqb x q)) s' with
        | (body, _ :: rest) => Some (q :: body ++ [q], rest)
        | (_, []) => None
        end
      else None
  end.

(** One round of the group: the alternatives in order; the piece matched
    at the head of [s] and the rest. *)
Definition matchAlternative (s : jsstring) : option (jsstring * jsstring) :=
  match span isPlain s with
  | (c :: run, rest) => Some (c :: run, rest)
  | ([], _) =>
      match quotedRun ch_dquote s with
      | Some r => Some r
      | None => quotedRun ch_squote s
      end
  end.

(** The group repeated greedily at the head of [s]: the text matched
    (empty when not even one round matches) and the rest. *)
Fixpoint matchToken (fuel : nat) (s : jsstring) : jsstring * jsstring :=
  match fuel with
  | O => ([], s)
  | S fuel' =>
      match matchAlternative s with
      | None => ([], s)
      | Some (piece, rest) =>
          let (more, rest') := matchToken fuel' rest in (piece ++ more, rest')
      end
  end.

(** The global match: every match, left to right; where the pattern does
    not match, the search moves on by one character. *)
Fixpoint matchAll (fuel : nat) (s : jsstring) : list jsstring :=
  match fuel with
  | O => []
  | S fuel' =>
      match s with
      | [] => []
      | _ :: s' =>
          match matchToken (length s) s with
          | ([], _) => matchAll fuel' s'
          | (token, rest) => token :: matchAll fuel' rest
          end
      end
  end.

Definition tokenize (attributeString : jsstring) : list jsstring :=
  matchAll (length attributeString) attributeString.

(** *** The classifier: the [for] loop over the tokens *)

(** The loop's variables: [result] and [cssProperties]. *)
Record LoopState := {
  result : ParsedAttributes;
  cssProperties : list jsstring
}.

Definition initialState : LoopState :=
  {| result := {| classes := []; id := None; attributes := [] |};
     cssProperties := [] |}.

(** [result.classes.push(c)] *)
Definition pushClass (c : jsstring) (st : LoopState) : LoopState :=
  {| result := {| classes := classes (result st) ++ [c];
                  id := id (result st);
                  attributes := attributes (result st) |};
     cssProperties := cssProperties st |}.

(** [result.id = i] *)
Definition setId (i : jsstring) (st : LoopState) : LoopState :=
  {| result := {| classes := classes (result st);
                  id := Some i;
                  attributes := attributes (result st) |};
     cssProperties := cssProperties st |}.

(** [result.attributes[key] = value] *)
Definition setAttribute (key value : jsstring) (st : LoopState) : LoopState :=
  {| result := {| classes := classes (result st);
                  id := id (result st);
                  attributes := assign key value (attributes (result st)) |};
     cssProperties := cssProperties st |}.

(** [cssProperties.push(d)] *)
Definition pushDeclaration (d : jsstring) (st : LoopState) : LoopState :=
  {| result := result st; cssProperties := cssProperties st ++ [d] |}.

(** [token.includes('=') && !token.includes(':')] *)
Definition isAttributeToken (token : jsstring) : bool :=
  includes ch_equals token && negb (includes ch_colon token).

(** The condition of the [break] in the inner loop. *)
Definition breaksDeclaration (nextToken : jsstring) : bool :=
  startsWith ch_dot nextToken
  || startsWith ch_hash nextToken
  || isAttributeToken nextToken
  || includes ch_colon nextToken.

(** [const [key, ...valueParts] = token.split('=')] *)
Definition attributeKey (token : jsstring) : jsstring :=
  match split ch_equals token with
  | [] => []
  | key :: _ => key
  end.

Definition valueParts (token : jsstring) : list jsstring :=
  match split ch_equals token with
  | [] => []
  | _ :: parts => parts
  end.

Definition isQuote (c : char) : bool :=
  N.eqb c ch_dquote || N.eqb c ch_squote.

(** [v.replace(/^["']|["']$/g, '')]: the global replacement removes a
    quote at the start and, among the characters after it, a quote at
    the end. *)
Definition stripQuotes (v : jsstring) : jsstring :=
  let v1 := match v with
            | c :: v' => if isQuote c then v' else v
            | [] => []
            end in
  match rev v1 with
  | c :: r => if isQuote c then rev r else v1
  | [] => v1
  end.

Definition attributeValue (token : jsstring) : jsstring :=
  stripQuotes (join [ch_equals] (valueParts token)).

(** The inner [while (j < tokens.length)] loop: the cursor and the
    declaration when it stops. *)
Fixpoint whileLoop (tokens : list jsstring) (fuel j : nat)
    (cssDeclaration : jsstring) : nat * jsstring :=
  match fuel with
  | O => (j, cssDeclaration)
  | S fuel' =>
      match nth_error tokens j with
      | None => (j, cssDeclaration)
      | Some nextToken =>
          if breaksDeclaration nextToken then (j, cssDeclaration)
          else whileLoop tokens fuel' (S j)
                 (cssDeclaration ++ ch_space :: nextToken)
      end
  end.

(** After the inner loop: trim, and end with a semicolon. *)
Definition finishDeclaration (cssDeclaration : jsstring) : jsstring :=
  let d := trim cssDeclaration in
  if endsWith ch_semicolon d then d else d ++ [ch_semicolon].

(** The [for (let i = 0; i < tokens.length; i++)] loop from cursor [i];
    the [switch (true)] takes the first case that holds.  In the last
    case the source sets [i = j - 1] and the loop header adds one. *)
Fixpoint forLoop (tokens : list jsstring) (fuel i : nat) (st : LoopState)
    : LoopState :=
  match fuel with
  | O => st
  | S fuel' =>
      match nth_error tokens i with
      | None => st
      | Some token =>
          if startsWith ch_dot token then
            forLoop tokens fuel' (S i) (pushClass (slice1 token) st)
          else if startsWith ch_hash token then
            forLoop tokens fuel' (S i) (setId (slice1 token) st)
          else if isAttributeToken token then
            forLoop tokens fuel' (S i)
              (setAttribute (attributeKey token) (attributeValue token) st)
          else if includes ch_colon token then
            let (j, cssDeclaration) :=
              whileLoop tokens (length tokens) (S i) token in
            forLoop tokens fuel' (S (j - 1))
              (pushDeclaration (finishDeclaration cssDeclaration) st)
          else
            forLoop tokens fuel' (S i) st
      end
  end.

(** The loop run from cursor [i] to the end of the tokens. *)
Definition classifyFrom (tokens : list jsstring) (i : nat) (st : LoopState)
    : LoopState :=
  forLoop tokens (length tokens - i) i st.

Definition key_style : jsstring := Eval cbv in str "style".
Definition key_className : jsstring := Eval cbv in str "className".
Definition key_id : jsstring := Eval cbv in str "id".

(** [if (cssProperties.length > 0) result.attributes.style = cssProperties.join(' ').trim()] *)
Definition addStyle (st : LoopState) : ParsedAttributes :=
  match cssProperties st with
  | [] => result st
  | _ :: _ =>
      {| classes := classes (result st);
         id := id (result st);
         attributes :=
           set key_style (trim (join [ch_space] (cssProperties st)))
             (attributes (result st)) |}
  end.

Definition parseTokens (tokens : list jsstring) : ParsedAttributes :=
  addStyle (classifyFrom tokens 0 initialState).

Definition parseAttributes (attributeString : jsstring) : ParsedAttributes :=
  parseTokens (tokenize attributeString).

(** ** The tree *)

(** A property value: a string, or a list of strings as [className]
    may hold. *)
Inductive PropertyValue :=
| PString (s : jsstring)
| PArray (items : list jsstring).

Definition Properties := object PropertyValue.

(** hast nodes; [properties] may be absent ([undefined]). *)
Inductive Node :=
| Root (children : list Node)
| Element (tagName : jsstring) (properties : option Properties)
    (children : list Node)
| Text (value : jsstring)
| Comment (value : jsstring).

(** How a visit ends: it returns, or a [TypeError] leaves it. *)
Inductive Completion := Normal | TypeError.

(** [parent.type === 'element'] *)
Definition isElement (n : Node) : bool :=
  match n with
  | Element _ _ _ => true
  | _ => false
  end.

(** ['children' in parent] *)
Definition hasChildren (n : Node) : bool :=
  match n with
  | Root _ | Element _ _ _ => true
  | _ => false
  end.

Definition childrenOf (n : Node) : list Node :=
  match n with
  | Root cs | Element _ _ cs => cs
  | _ => []
  end.

Definition setChildren (n : Node) (cs : list Node) : Node :=
  match n with
  | Root _ => Root cs
  | Element tag props _ => Element tag props cs
  | _ => n
  end.

(** [cs[i] = x], for [i] inside the list *)
Fixpoint replaceAt (i : nat) (x : Node) (cs : list Node) : list Node :=
  match cs, i with
  | [], _ => []
  | _ :: cs', O => x :: cs'
  | c :: cs', S i' => c :: replaceAt i' x cs'
  end.

(** [cs.splice(i, 1)] *)
Fixpoint removeAt (i : nat) (cs : list Node) : list Node :=
  match cs, i with
  | [], _ => []
  | _ :: cs', O => cs'
  | c :: cs', S i' => c :: removeAt i' cs'
  end.

(** ** getTargetElement *)

(** The element the function returns is a node of the tree: the child
    at a position, or the parent itself. *)
Inductive TargetRef :=
| ChildAt (i : nat)
| TheParent.

(** [children[i]?.type === 'element'] *)
Definition elementAt (children : list Node) (i : nat) : bool :=
  match nth_error children i with
  | Some n => isElement n
  | None => false
  end.

Definition getTargetElement (parent : Node) (index : nat) : option TargetRef :=
  let children := childrenOf parent in
  if negb (index =? 0) && (0 <? length children)
     && elementAt children (index - 1)
  then Some (ChildAt (index - 1))
  else if elementAt children 0 && (length children =? 1)
  then Some (ChildAt 0)
  else if isElement parent
  then Some TheParent
  else None.

(** The node a reference stands for. *)
Definition deref (parent : Node) (ref : TargetRef) : option Node :=
  match ref with
  | ChildAt i => nth_error (childrenOf parent) i
  | TheParent => Some parent
  end.

(** Running a mutation [f] of the referenced node: the tree afterwards
    and how [f] ended. *)
Definition mutateAt (parent : Node) (ref : TargetRef)
    (f : Node -> Node * Completion) : Node * Completion :=
  match ref with
  | TheParent => f parent
  | ChildAt i =>
      match nth_error (childrenOf parent) i with
      | Some n =>
          let (n', c) := f n in
          (setChildren parent (replaceAt i n' (childrenOf parent)), c)
      | None => (parent, Normal)
      end
  end.

(** ** applyAttributes *)

(** [element.properties ??= {}] *)
Definition propertiesOrEmpty (properties : option Properties) : Properties :=
  match properties with
  | Some p => p
  | None => []
  end.

Definition isEmpty (s : jsstring) : bool :=
  match s with
  | [] => true
  | _ :: _ => false
  end.

(** [Array.isArray(c) ? c : typeof c === 'string' ? c.split(' ').filter(Boolean) : []] *)
Definition existingClassArray (existingClasses : option PropertyValue)
    : list jsstring :=
  match existingClasses with
  | Some (PArray items) => items
  | Some (PString s) => filter (fun p => negb (isEmpty p)) (split ch_space s)
  | None => []
  end.

Definition memberOf (x : jsstring) (l : list jsstring) : bool :=
  existsb (string_eqb x) l.

(** [[...new Set(l)]]: a Set keeps the first insertion of each value. *)
Fixpoint setAdd (seen : list jsstring) (l : list jsstring) : list jsstring :=
  match l with
  | [] => seen
  | x :: l' => if memberOf x seen then setAdd seen l' else setAdd (seen ++ [x]) l'
  end.

Definition newSet (l : list jsstring) : list jsstring := setAdd [] l.

(** The block under [// Apply classes]. *)
Definition applyClasses (cls : list jsstring) (props : Properties) : Properties :=
  match cls with
  | [] => props
  | _ :: _ =>
      let existingClasses := get key_className props in
      set key_className
        (PString (join [ch_space]
                    (newSet (existingClassArray existingClasses ++ cls))))
        props
  end.

(** The block under [// Apply ID]; the empty string is falsy. *)
Definition applyId (i : option jsstring) (props : Properties) : Properties :=
  match i with
  | Some (c :: v) => set key_id (PString (c :: v)) props
  | _ => props
  end.

(** [existingStyle && !existingStyle.endsWith(';') ? '; ' : existingStyle ? ' ' : ''] *)
Definition separator (existingStyle : jsstring) : jsstring :=
  if negb (isEmpty existingStyle) && negb (endsWith ch_semicolon existingStyle)
  then [ch_semicolon; ch_space]
  else if negb (isEmpty existingStyle) then [ch_space]
  else [].

(** The loop over [Object.entries(attributes.attributes)].  For the key
    [style], [existingStyle] is [properties.style || ''] and is used as a
    string: an array there is truthy and has no [endsWith], the call
    throws. *)
Fixpoint applyEntries (entries : object jsstring) (props : Properties)
    : Properties * Completion :=
  match entries with
  | [] => (props, Normal)
  | (key, value) :: rest =>
      if string_eqb key key_style then
        match get key_style props with
        | Some (PArray _) => (props, TypeError)
        | Some (PString existingStyle) =>
            applyEntries rest
              (set key_style
                 (PString (existingStyle ++ separator existingStyle ++ value))
                 props)
        | None =>
            applyEntries rest
              (set key_style (PString ([] ++ separator [] ++ value)) props)
        end
      else applyEntries rest (assign key (PString value) props)
  end.

Definition applyAttributes (element : Node) (attrs : ParsedAttributes)
    : Node * Completion :=
  match element with
  | Element tag properties children =>
      let props := propertiesOrEmpty properties in
      let props := applyClasses (classes attrs) props in
      let props := applyId (id attrs) props in
      let (props, c) := applyEntries (attributes attrs) props in
      (Element tag (Some props) children, c)
  | _ => (element, Normal)
  end.

(** The empty braces: [properties ??= {}; properties.style = ''] *)
Definition applyEmptyStyle (element : Node) : Node * Completion :=
  match element with
  | Element tag properties children =>
      (Element tag (Some (set key_style (PString []) (propertiesOrEmpty properties)))
         children, Normal)
  | _ => (element, Normal)
  end.

(** ** onVisit *)

(** [node.value = v] for the node at [index], then the [splice] when
    [v] is empty.  The visited node is the child at [index], so
    [indexOf(node)] is [index]. *)
Definition stripAndPrune (parent : Node) (index : nat) (newValue : jsstring)
    : Node :=
  let children := replaceAt index (Text newValue) (childrenOf parent) in
  setChildren parent
    (if isEmpty newValue then removeAt index children else children).

(** One call of the visitor on the text child at [index] of [parent],
    past the guard on the arguments. *)
Definition onVisit (index : nat) (parent : Node) : Node * Completion :=
  if negb (hasChildren parent) then (parent, Normal) else
  match nth_error (childrenOf parent) index with
  | Some (Text value) =>
      match attributeRegex value with
      | None => (parent, Normal)
      | Some (captured, replaced) =>
          let attributeString := trim captured in
          if isEmpty attributeString then
            let parent := stripAndPrune parent index (trim replaced) in
            match getTargetElement parent index with
            | Some targetElement => mutateAt parent targetElement applyEmptyStyle
            | None => (parent, Normal)
            end
          else
            let parsedAttributes := parseAttributes attributeString in
            let parent := stripAndPrune parent index (trim replaced) in
            match getTargetElement parent index with
            | Some targetElement =>
                mutateAt parent targetElement
                  (fun element => applyAttributes element parsedAttributes)
            | None => (parent, Normal)
            end
      end
  | _ => (parent, Normal)
  end.

(** The visitor as the traversal calls it: nothing happens without a
    parent or an index. *)
Definition onVisitCall (index : option nat) (parent : option Node)
    : option Node * Completion :=
  match index, parent with
  | Some i, Some p => let (p', c) := onVisit i p in (Some p', c)
  | _, _ => (parent, Normal)
  end.

(** ** The earlier visitor of [src/index.ts]

    It knows styles only: the text between the braces becomes the
    [style] property of the target, which it chooses among the previous
    sibling, the first child and the parent. *)

Module SrcIndex.

(** [{ ...(properties ?? {}), style: extractedStyle }] *)
Definition withStyle (extractedStyle : jsstring) (element : Node)
    : Node * Completion :=
  match element with
  | Element tag properties children =>
      (Element tag
         (Some (set key_style (PString extractedStyle)
                  (propertiesOrEmpty properties)))
         children, Normal)
  | _ => (element, Normal)
  end.

(** The [if ... else if ... else if] at the end of the visitor. *)
Definition target (parent : Node) (index : nat) : option TargetRef :=
  let children := childrenOf parent in
  if negb (index =? 0) && (0 <? length children)
     && elementAt children (index - 1)
  then Some (ChildAt (index - 1))
  else if elementAt children 0
  then Some (ChildAt 0)
  else if isElement parent
  then Some TheParent
  else None.

Definition onVisit (index : nat) (parent : Node) : Node * Completion :=
  if negb (hasChildren parent) then (parent, Normal) else
  match nth_error (childrenOf parent) index with
  | Some (Text value) =>
      match attributeRegex value with
      | None => (parent, Normal)
      | Some (extractedStyle, replaced) =>
          let parent := stripAndPrune parent index (trim replaced) in
          match target parent index with
          | Some t => mutateAt parent t (withStyle extractedStyle)
          | None => (parent, Normal)
          end
      end
  | _ => (parent, Normal)
  end.

End SrcIndex.

(** ** Vocabulary of the statements *)

(** No white space at the start of [s], no white space at its end. *)
Definition noLeadingSpace (s : jsstring) : Prop :=
  forall c s', s = c :: s' -> isWhiteSpace c = false.
Definition noTrailingSpace (s : jsstring) : Prop :=
  forall c s', s = s' ++ [c] -> isWhiteSpace c = false.

(** The text child at [index] after the value is rewritten and the
    node is dropped when the value is empty. *)
Definition prunedChildren (index : nat) (newValue : jsstring) (cs : list Node)
    : list Node :=
  if isEmpty newValue then removeAt index cs
  else replaceAt index (Text newValue) cs.

(** A node without its own properties: tag, children and text stay. *)
Definition withoutProperties (n : Node) : Node :=
  match n with
  | Element tag _ cs => Element tag None cs
  | _ => n
  end.

(** A mutation that writes properties of an element and nothing else. *)
Definition writesPropertiesOnly (f : Node -> Node * Completion) : Prop :=
  forall n, withoutProperties (fst (f n)) = withoutProperties n.

(** What the visitor does to the target: the empty braces write an
    empty style, anything else is parsed and merged. *)
Definition effectOf (captured : jsstring) : Node -> Node * Completion :=
  if isEmpty (trim captured) then applyEmptyStyle
  else fun element => applyAttributes element (parseAttributes (trim captured)).

(** The resolution rules in the words of the specification.  Rule 1: the
    original index is greater than 0 and the child at the position before
    it is an element. *)
Definition previousIsElement (parent : Node) (originalIndex : nat) : Prop :=
  originalIndex > 0 /\
  exists sibling,
    nth_error (childrenOf parent) (originalIndex - 1) = Some sibling
    /\ isElement sibling = true.

(** Rule 2: the first entry of the child list is an element and the
    list has exactly one entry. *)
Definition soleChildIsElement (parent : Node) : Prop :=
  exists first, childrenOf parent = [first] /\ isElement first = true.

(** The rules tried in order, the first that applies wins. *)
Inductive ResolvesTo (parent : Node) (originalIndex : nat)
    : option TargetRef -> Prop :=
| resolve_previous :
    previousIsElement parent originalIndex ->
    ResolvesTo parent originalIndex (Some (ChildAt (originalIndex - 1)))
| resolve_sole_child :
    ~ previousIsElement parent originalIndex ->
    soleChildIsElement parent ->
    ResolvesTo parent originalIndex (Some (ChildAt 0))
| resolve_parent :
    ~ previousIsElement parent originalIndex ->
    ~ soleChildIsElement parent ->
    isElement parent = true ->
    ResolvesTo parent originalIndex (Some TheParent)
| resolve_none :
    ~ previousIsElement parent originalIndex ->
    ~ soleChildIsElement parent ->
    isElement parent = false ->
    ResolvesTo parent originalIndex None.

(** ** Trees of the test suite *)

Definition el (tag : string) (children : list Node) : Node :=
  Element (str tag) (Some []) children.

Definition styled (tag css : string) (children : list Node) : Node :=
  Element (str tag) (Some [(key_style, PString (str css))]) children.

Definition txt (value : string) : Node := Text (str value).

(** A paragraph: a [strong] element, then a text that starts with an
    annotation. *)
Definition postElementParagraph : Node :=
  el "p" [ el "strong" [txt "Important text"];
           txt "{color: red; font-weight: 900;} that needs attention" ].

(** A paragraph whose only child is an annotated text. *)
Definition loneTextParagraph : Node :=
  el "p" [ txt "{color: red; font-weight: bold;}This is styled text" ].

(** A root whose first child is an annotated text. *)
Definition rootWithLeadingText : Node :=
  Root [ txt "{color: red;}Hello"; el "p" [txt "world"] ].

(** Annotations that do not match: in the middle, and unterminated. *)
Definition middleParagraph : Node :=
  el "p" [ txt "Some text {color: red;} in the middle" ].

Definition unterminatedParagraph : Node :=
  el "p" [ txt "{color: red; font-weight: bold" ].

(** Empty braces in front of a text, inside a paragraph with a style. *)
Definition emptyBracesParagraph : Node :=
  styled "p" "margin: 0" [ txt "{}Some text here" ].

(** The two surviving texts of the test with two annotations in one
    parent: [{font-style: italic;} and ] becomes [and]. *)
Definition twoAnnotations : Node :=
  el "div" [ el "em" [txt "Italic text"];
             txt "{font-style: italic; color: blue;} and ";
             el "strong" [txt "bold text"];
             txt "{font-weight: bold; color: green;} together" ].

(** ** Vocabulary of the classifier statements *)

(** A token that a declaration absorbs: it does not start with a dot or
    a hash, is not an attribute token (an equals sign and no colon) and
    has no colon. *)
Definition absorbable (token : jsstring) : bool :=
  negb (startsWith ch_dot token)
  && negb (startsWith ch_hash token)
  && negb (includes ch_equals token && negb (includes ch_colon token))
  && negb (includes ch_colon token).

(** The longest run of absorbable tokens at the head of a list. *)
Fixpoint absorbedTokens (following : list jsstring) : list jsstring :=
  match following with
  | [] => []
  | t :: rest => if absorbable t then t :: absorbedTokens rest else []
  end.

(** A quote removed at the start, a quote removed at the end. *)
Definition withoutLeadingQuote (v : jsstring) : jsstring :=
  match v with
  | c :: v' => if isQuote c then v' else v
  | [] => []
  end.

Definition withoutTrailingQuote (v : jsstring) : jsstring :=
  rev (withoutLeadingQuote (rev v)).

(** The reading of the value that strips quotes only as a matching
    pair: the same quote character at both ends. *)
Definition withoutMatchingQuotes (v : jsstring) : jsstring :=
  match v, rev v with
  | c :: _ :: _, d :: _ =>
      if isQuote c && N.eqb c d then removelast (tl v) else v
  | _, _ => v
  end.

(** ** Vocabulary of the merge statements *)

(** The properties of an element, as the merge sees them. *)
Definition propertiesOf (n : Node) : Properties :=
  match n with
  | Element _ properties _ => propertiesOrEmpty properties
  | _ => []
  end.

(** The existing style as the merge reads it: the string stored under
    [style], and the empty string when nothing is stored. *)
Inductive ExistingStyle (properties : option Properties) : jsstring -> Prop :=
| existing_absent :
    get key_style (propertiesOrEmpty properties) = None ->
    ExistingStyle properties []
| existing_string s :
    get key_style (propertiesOrEmpty properties) = Some (PString s) ->
    ExistingStyle properties s.

(** A list without its repetitions, each value at the place of its
    first occurrence. *)
Fixpoint keepFirst (l : list jsstring) : list jsstring :=
  match l with
  | [] => []
  | x :: l' => x :: filter (fun y => negb (string_eqb x y)) (keepFirst l')
  end.

(** The pieces of [s] between the characters that satisfy [p]. *)
Fixpoint splitWhen (p : char -> bool) (s : jsstring) : list jsstring :=
  match s with
  | [] => [[]]
  | x :: s' =>
      if p x then [] :: splitWhen p s'
      else match splitWhen p s' with
           | [] => [[x]]
           | q :: qs => (x :: q) :: qs
           end
  end.

(** A string split on white space, empty pieces dropped. *)
Definition splitOnWhiteSpace (s : jsstring) : list jsstring :=
  filter (fun p => negb (isEmpty p)) (splitWhen isWhiteSpace s).

(** A declaration of a style value: it ends with a semicolon and has no
    white space at either end. *)
Definition Declaration (d : jsstring) : Prop :=
  endsWith ch_semicolon d = true /\ noLeadingSpace d /\ noTrailingSpace d.

(** A style value made of declarations joined by single spaces. *)
Definition StyleShape (v : jsstring) : Prop :=
  exists declarations,
    Forall Declaration declarations /\ v = join [ch_space] declarations.

(** A paragraph with a style and an annotated text. *)
Definition styledParagraph : Node :=
  styled "p" "margin: 10px;" [ txt "{color: red; font-size: 14px;}Text content" ].

(** ** The traversal: [visit(tree, 'text', onVisit)]

    The traversal belongs to [unist-util-visit].  It walks the tree in
    document order; for a node with children it runs through the live
    child list by position, so that after a visit that removed the text
    child at [offset] it goes on at [offset + 1] of the shorter list.
    The visitor returns nothing, the walk is never cut short, and an
    exception ends it. *)

Fixpoint visitChildren (fuel : nat) (node : Node) (offset : nat)
    : Node * Completion :=
  match fuel with
  | O => (node, Normal)
  | S fuel' =>
      match nth_error (childrenOf node) offset with
      | None => (node, Normal)
      | Some (Text _) =>
          match onVisit offset node with
          | (node', Normal) => visitChildren fuel' node' (S offset)
          | (node', TypeError) => (node', TypeError)
          end
      | Some child =>
          match visitChildren fuel' child 0 with
          | (child', Normal) =>
              visitChildren fuel'
                (setChildren node (replaceAt offset child' (childrenOf node)))
                (S offset)
          | (child', TypeError) =>
              (setChildren node (replaceAt offset child' (childrenOf node)),
               TypeError)
          end
      end
  end.

(** Fuel for a whole walk: one step for each child and one for the end
    of each child list. *)
Fixpoint weight (n : Node) : nat :=
  match n with
  | Root cs | Element _ _ cs => S (list_sum (map (fun c => S (weight c)) cs))
  | _ => 1
  end.

(** The transformer the plugin returns.  A tree that is a lone text has
    no parent: the visitor is called without one and returns at once. *)
Definition rehypeStyling (tree : Node) : Node * Completion :=
  visitChildren (weight tree) tree 0.

(** No text of the tree starts with an annotation. *)
Fixpoint annotationFree (n : Node) : bool :=
  match n with
  | Root cs | Element _ _ cs => forallb annotationFree cs
  | Text value =>
      match attributeRegex value with
      | Some _ => false
      | None => true
      end
  | Comment _ => true
  end.

(** The steps left in a child list. *)
Definition childWeights (cs : list Node) : nat :=
  list_sum (map (fun c => S (weight c)) cs).

(** Fuel that suffices for the walk of [node] from [offset]. *)
Definition walkBound (node : Node) (offset : nat) : nat :=
  S (childWeights (skipn offset (childrenOf node))).

(** ** Tactics *)

(** A character is not in a given string. *)
Ltac not_in_string :=
  let H := fresh in
  intros H; simpl in H; repeat (destruct H as [H|H]; [discriminate H|]); exact H.

(** ** Vocabulary of the statements on whole annotations *)

(** A token that opens a declaration: a colon, and neither a dot nor
    a hash at its start. *)
Definition opensDeclaration (token : jsstring) : bool :=
  negb (startsWith ch_dot token)
  && negb (startsWith ch_hash token)
  && includes ch_colon token.

(** A token that sets the id: a hash at its start. *)
Definition isIdToken (token : jsstring) : bool :=
  negb (startsWith ch_dot token) && startsWith ch_hash token.

(** A token that stores the attribute [key]: neither a dot nor a hash
    at its start, an equals sign, no colon, and [key] before the first
    equals sign. *)
Definition storesKey (key token : jsstring) : bool :=
  negb (startsWith ch_dot token)
  && negb (startsWith ch_hash token)
  && isAttributeToken token
  && string_eqb (attributeKey token) key.

(** The last element of a list that satisfies [p]. *)
Fixpoint lastWhere (p : jsstring -> bool) (l : list jsstring) : option jsstring :=
  match l with
  | [] => None
  | x :: l' =>
      match lastWhere p l' with
      | Some y => Some y
      | None => if p x then Some x else None
      end
  end.


(** No quote character in the string. *)
Definition quoteFree (s : jsstring) : Prop :=
  forall c, In c s -> isQuote c = false.

(** A token of none of the four shapes. *)
Definition shapeless (token : jsstring) : Prop :=
  startsWith ch_dot token = false
  /\ startsWith ch_hash token = false
  /\ includes ch_equals token = false
  /\ includes ch_colon token = false.
(** * Checks on concrete inputs *)

Example attributeRegex_1 :
  attributeRegex (str "{color: red;}This") = Some (str "color: red;", str "This").
Proof. reflexivity. Qed.

Example attributeRegex_2 : attributeRegex (str "Some {a} text") = None.
Proof. reflexivity. Qed.

Example attributeRegex_3 : attributeRegex (str "{color: red") = None.
Proof. reflexivity. Qed.

Example trim_1 : trim (str "  and ") = str "and".
Proof. reflexivity. Qed.

Example split_1 : split ch_equals (str "a=b=c") = [str "a"; str "b"; str "c"].
Proof. reflexivity. Qed.

Example split_2 : split ch_space (str " a  b ") = [[]; str "a"; []; str "b"; []].
Proof. reflexivity. Qed.

Example tokenize_1 :
  tokenize (str ".card .featured #main-article color: blue; padding: 20px; data-category='tech'")
  = [str ".card"; str ".featured"; str "#main-article"; str "color:"; str "blue;";
     str "padding:"; str "20px;"; str "data-category='tech'"].
Proof. reflexivity. Qed.

Example tokenize_2 : tokenize (str "a'b c'd  'e") = [str "a'b c'd"; str "e"].
Proof. reflexivity. Qed.

Example parseAttributes_1 :
  parseAttributes (str ".card .featured #main-article color: blue; padding: 20px; data-category='tech'")
  = {| classes := [str "card"; str "featured"];
       id := Some (str "main-article");
       attributes := [(str "data-category", str "tech");
                      (str "style", str "color: blue; padding: 20px;")] |}.
Proof. reflexivity. Qed.

Example onVisit_lone_text :
  onVisit 0 loneTextParagraph
  = (Element (str "p") (Some [(str "style", PString (str "color: red; font-weight: bold;"))])
       [Text (str "This is styled text")], Normal).
Proof. reflexivity. Qed.

Example onVisit_display_none :
  onVisit 0 (Element (str "div") (Some []) [Text (str "{display: none;}")])
  = (Element (str "div") (Some [(str "style", PString (str "display: none;"))]) [], Normal).
Proof. reflexivity. Qed.

Example onVisit_merge_classes :
  onVisit 0 (Element (str "div") (Some [(str "className", PString (str "existing"))])
               [Text (str "{.new .x}Text")])
  = (Element (str "div") (Some [(str "className", PString (str "existing new x"))])
       [Text (str "Text")], Normal).
Proof. reflexivity. Qed.

Example onVisit_merge_style :
  onVisit 0 (Element (str "p") (Some [(str "style", PString (str "margin: 10px;"))])
               [Text (str "{color: red; font-size: 14px;}Text content")])
  = (Element (str "p") (Some [(str "style", PString (str "margin: 10px; color: red; font-size: 14px;"))])
       [Text (str "Text content")], Normal).
Proof. reflexivity. Qed.

Example tokenize_3 :
  tokenize (str "font-family: 'Georgia', serif; color: #7c3aed;")
  = [str "font-family:"; str "'Georgia',"; str "serif;"; str "color:"; str "#7c3aed;"].
Proof. reflexivity. Qed.

(** A token that starts with a hash is an id, also as the value of a
    declaration. *)
Example parseAttributes_hash_value :
  parseAttributes (str "color: #7c3aed;")
  = {| classes := []; id := Some (str "7c3aed;");
       attributes := [(key_style, str "color:;")] |}.
Proof. reflexivity. Qed.

(** * Strings and objects *)

Lemma string_eqb_refl (a : jsstring) : string_eqb a a = true.
Proof.
  induction a as [|x a IH]; simpl; [reflexivity|].
  now rewrite N.eqb_refl, IH.
Qed.

Lemma string_eqb_eq (a b : jsstring) : string_eqb a b = true <-> a = b.
Proof.
  split.
  - revert b; induction a as [|x a IH]; intros [|y b]; simpl; try discriminate; auto.
    intros H. apply andb_true_iff in H as [H1 H2].
    apply N.eqb_eq in H1. apply IH in H2. now subst.
  - intros ->. apply string_eqb_refl.
Qed.

Lemma string_eqb_neq (a b : jsstring) : string_eqb a b = false <-> a <> b.
Proof.
  rewrite <- string_eqb_eq. destruct (string_eqb a b); split; congruence.
Qed.

Section ObjectFacts.
Variable V : Type.
Implicit Types (o : object V) (k key : jsstring) (v : V).

Lemma get_set_same key v o : get key (set key v o) = Some v.
Proof.
  induction o as [|[k w] o IH]; simpl.
  - now rewrite string_eqb_refl.
  - destruct (string_eqb k key) eqn:E; simpl; rewrite E; auto.
Qed.

Lemma get_set_other key k v o : k <> key -> get k (set key v o) = get k o.
Proof.
  intros Hne. induction o as [|[k' w] o IH]; simpl.
  - destruct (string_eqb key k) eqn:E; auto.
    apply string_eqb_eq in E. congruence.
  - destruct (string_eqb k' key) eqn:E; simpl.
    + apply string_eqb_eq in E. subst k'.
      destruct (string_eqb key k) eqn:E'; auto.
      apply string_eqb_eq in E'. congruence.
    + now rewrite IH.
Qed.

Lemma get_None_keys key o : get key o = None <-> ~ In key (keys o).
Proof.
  induction o as [|[k w] o IH]; simpl.
  - tauto.
  - destruct (string_eqb k key) eqn:E.
    + apply string_eqb_eq in E. split; [discriminate | intros H; exfalso; apply H; now left].
    + apply string_eqb_neq in E. rewrite IH. tauto.
Qed.

Lemma keys_set key v o :
  keys (set key v o)
  = match get key o with Some _ => keys o | None => keys o ++ [key] end.
Proof.
  induction o as [|[k w] o IH]; simpl; [reflexivity|].
  destruct (string_eqb k key) eqn:E; simpl; [reflexivity|].
  rewrite IH. now destruct (get key o).
Qed.

(** An object has one entry per key, and [set] keeps it so. *)
Lemma NoDup_keys_set key v o : NoDup (keys o) -> NoDup (keys (set key v o)).
Proof.
  intros H. rewrite keys_set. destruct (get key o) eqn:E; [assumption|].
  apply get_None_keys in E.
  apply NoDup_app; [assumption | repeat constructor; simpl; tauto | ].
  intros x Hx [<-|[]]. contradiction.
Qed.
Lemma get_assign_same key v o :
  key <> key_proto -> get key (assign key v o) = Some v.
Proof.
  intros Hne. unfold assign.
  destruct (string_eqb key key_proto) eqn:E.
  - apply string_eqb_eq in E. contradiction.
  - apply get_set_same.
Qed.

Lemma get_assign_other key k v o : k <> key -> get k (assign key v o) = get k o.
Proof.
  intros Hne. unfold assign.
  destruct (string_eqb key key_proto); [reflexivity | now apply get_set_other].
Qed.

Lemma NoDup_keys_assign key v o : NoDup (keys o) -> NoDup (keys (assign key v o)).
Proof.
  intros H. unfold assign.
  destruct (string_eqb key key_proto); [exact H | now apply NoDup_keys_set].
Qed.
End ObjectFacts.

(** * The annotation pattern *)

Lemma captureToClose_sound (s body rest : jsstring) :
  captureToClose s = Some (body, rest) ->
  s = body ++ ch_rbrace :: rest /\ ~ In ch_rbrace body.
Proof.
  revert body. induction s as [|c s IH]; intros body; simpl; [discriminate|].
  destruct (N.eqb c ch_rbrace) eqn:E.
  - apply N.eqb_eq in E. subst c. intros [= <- <-]. simpl. auto.
  - apply N.eqb_neq in E. destruct (captureToClose s) as [[b r]|]; [|discriminate].
    intros [= <- <-]. destruct (IH b eq_refl) as [-> Hn].
    split; [reflexivity|]. simpl. intros [H|H]; congruence.
Qed.

Lemma captureToClose_complete (body rest : jsstring) :
  ~ In ch_rbrace body ->
  captureToClose (body ++ ch_rbrace :: rest) = Some (body, rest).
Proof.
  induction body as [|c body IH]; simpl; intros Hn.
  - reflexivity.
  - destruct (N.eqb c ch_rbrace) eqn:E.
    + apply N.eqb_eq in E. exfalso. apply Hn. now left.
    + rewrite IH; [reflexivity|]. intros H. apply Hn. now right.
Qed.

Lemma captureToClose_Some (s body rest : jsstring) :
  captureToClose s = Some (body, rest)
  <-> s = body ++ ch_rbrace :: rest /\ ~ In ch_rbrace body.
Proof.
  split; [apply captureToClose_sound|].
  intros [-> Hn]. now apply captureToClose_complete.
Qed.

Lemma captureToClose_None (s : jsstring) :
  captureToClose s = None <-> ~ In ch_rbrace s.
Proof.
  induction s as [|c s IH]; simpl.
  - tauto.
  - destruct (N.eqb c ch_rbrace) eqn:E.
    + apply N.eqb_eq in E. split; [discriminate|]. intros H. exfalso. apply H. now left.
    + apply N.eqb_neq in E. destruct (captureToClose s) as [[b r]|].
      * split; [discriminate|]. intros H. exfalso.
        assert (Hs : ~ In ch_rbrace s) by tauto. apply IH in Hs. discriminate.
      * split; [|reflexivity]. intros _ [H|H]; [congruence|]. now apply IH in H.
Qed.

(** The pattern matches exactly the values made of an opening brace, a
    body without closing brace, a closing brace and a rest; the capture
    group is the body and the replacement leaves the rest. *)
Lemma attributeRegex_Some (value body rest : jsstring) :
  attributeRegex value = Some (body, rest)
  <-> value = ch_lbrace :: body ++ ch_rbrace :: rest /\ ~ In ch_rbrace body.
Proof.
  destruct value as [|c s]; simpl.
  - split; [discriminate | intros [H _]; discriminate].
  - destruct (N.eqb c ch_lbrace) eqn:E.
    + apply N.eqb_eq in E. subst c. rewrite captureToClose_Some.
      split; intros [H Hn]; split; auto; congruence.
    + apply N.eqb_neq in E. split; [discriminate|]. intros [[= H _] _]. congruence.
Qed.

(** It fails exactly on the values that do not start with an opening
    brace followed, somewhere, by a closing brace. *)
Lemma attributeRegex_None (value : jsstring) :
  attributeRegex value = None
  <-> forall body rest, value <> ch_lbrace :: body ++ ch_rbrace :: rest.
Proof.
  split.
  - intros H body rest ->. simpl in H.
    apply captureToClose_None in H. apply H, in_elt.
  - intros H. destruct value as [|c s]; [reflexivity|]. simpl.
    destruct (N.eqb c ch_lbrace) eqn:E; [|reflexivity].
    apply N.eqb_eq in E. subst c.
    apply captureToClose_None. intros Hin.
    apply in_split in Hin as (body & rest & ->). now apply (H body rest).
Qed.

(** * Trimming *)

Lemma dropWhile_length p (s : jsstring) : length (dropWhile p s) <= length s.
Proof.
  induction s as [|c s IH]; simpl; [lia|]. destruct (p c); simpl; lia.
Qed.

Lemma trim_length (s : jsstring) : length (trim s) <= length s.
Proof.
  unfold trim, trimEnd, trimStart. rewrite length_rev.
  etransitivity; [apply dropWhile_length|]. rewrite length_rev. apply dropWhile_length.
Qed.

Lemma dropWhile_head p (s : jsstring) c s' :
  dropWhile p s = c :: s' -> p c = false.
Proof.
  induction s as [|x s IH]; simpl; [discriminate|].
  destruct (p x) eqn:E; [assumption|]. now intros [= <- _].
Qed.

Lemma dropWhile_fixed p (s : jsstring) :
  (forall c s', s = c :: s' -> p c = false) -> dropWhile p s = s.
Proof.
  destruct s as [|c s]; simpl; [reflexivity|]. intros H. now rewrite (H c s eq_refl).
Qed.

Lemma dropWhile_suffix p (s : jsstring) : exists pre, s = pre ++ dropWhile p s.
Proof.
  induction s as [|c s [pre IH]]; simpl.
  - now exists [].
  - destruct (p c).
    + exists (c :: pre). simpl. now f_equal.
    + now exists [].
Qed.

Lemma trim_noTrailingSpace (s : jsstring) : noTrailingSpace (trim s).
Proof.
  intros c s' H. unfold trim, trimEnd in H.
  apply (f_equal (@rev char)) in H. rewrite rev_involutive, rev_app_distr in H.
  simpl in H. now apply dropWhile_head in H.
Qed.

Lemma trim_noLeadingSpace (s : jsstring) : noLeadingSpace (trim s).
Proof.
  intros c s' H. unfold trim, trimEnd in H.
  remember (trimStart s) as t eqn:Et.
  destruct (dropWhile_suffix isWhiteSpace (rev t)) as [pre Hpre].
  apply (f_equal (@rev char)) in Hpre. rewrite rev_involutive, rev_app_distr in Hpre.
  rewrite H in Hpre. simpl in Hpre.
  unfold trimStart in Et. rewrite Hpre in Et. symmetry in Et.
  now apply dropWhile_head in Et.
Qed.

Lemma trim_fixed (s : jsstring) :
  noLeadingSpace s -> noTrailingSpace s -> trim s = s.
Proof.
  intros Hl Ht. unfold trim, trimStart, trimEnd.
  rewrite (dropWhile_fixed _ _ Hl).
  rewrite dropWhile_fixed; [apply rev_involutive|].
  intros c s' H. apply (Ht c (rev s')).
  apply (f_equal (@rev char)) in H. rewrite rev_involutive in H. now simpl in H.
Qed.

Lemma trim_idempotent (s : jsstring) : trim (trim s) = trim s.
Proof.
  apply trim_fixed; [apply trim_noLeadingSpace | apply trim_noTrailingSpace].
Qed.

(** * Child lists and references *)

Lemma nth_error_hasChildren (parent : Node) i n :
  nth_error (childrenOf parent) i = Some n -> hasChildren parent = true.
Proof. destruct parent; simpl; auto; destruct i; discriminate. Qed.

Lemma childrenOf_setChildren (parent : Node) cs :
  hasChildren parent = true -> childrenOf (setChildren parent cs) = cs.
Proof. destruct parent; simpl; auto; discriminate. Qed.

Lemma hasChildren_setChildren (parent : Node) cs :
  hasChildren (setChildren parent cs) = hasChildren parent.
Proof. now destruct parent. Qed.

Lemma isElement_setChildren (parent : Node) cs :
  isElement (setChildren parent cs) = isElement parent.
Proof. now destruct parent. Qed.

Lemma setChildren_setChildren (parent : Node) cs cs' :
  setChildren (setChildren parent cs) cs' = setChildren parent cs'.
Proof. now destruct parent. Qed.

Lemma removeAt_replaceAt i x cs : removeAt i (replaceAt i x cs) = removeAt i cs.
Proof.
  revert i; induction cs as [|c cs IH]; intros [|i]; simpl; auto. now rewrite IH.
Qed.

Lemma length_replaceAt i x cs : length (replaceAt i x cs) = length cs.
Proof.
  revert i; induction cs as [|c cs IH]; intros [|i]; simpl; auto.
Qed.

Lemma length_removeAt i cs :
  i < length cs -> S (length (removeAt i cs)) = length cs.
Proof.
  revert i; induction cs as [|c cs IH]; intros [|i]; simpl; try lia.
  intros H. rewrite IH; lia.
Qed.

Lemma nth_error_replaceAt_same i x cs :
  i < length cs -> nth_error (replaceAt i x cs) i = Some x.
Proof.
  revert i; induction cs as [|c cs IH]; intros [|i]; simpl; try lia; auto.
  intros H. apply IH. lia.
Qed.

Lemma nth_error_replaceAt_other i k x cs :
  k <> i -> nth_error (replaceAt i x cs) k = nth_error cs k.
Proof.
  revert i k; induction cs as [|c cs IH]; intros [|i] [|k]; simpl; auto; try congruence.
Qed.

Lemma nth_error_removeAt_before i k cs :
  k < i -> nth_error (removeAt i cs) k = nth_error cs k.
Proof.
  revert i k; induction cs as [|c cs IH]; intros [|i] [|k]; simpl; auto; try lia.
  intros H. apply IH. lia.
Qed.

Lemma nth_error_removeAt_after i k cs :
  i <= k -> nth_error (removeAt i cs) k = nth_error cs (S k).
Proof.
  revert i k; induction cs as [|c cs IH]; intros i k H.
  - destruct i, k; reflexivity.
  - destruct i as [|i]; simpl; [reflexivity|].
    destruct k as [|k]; [lia|]. simpl. apply IH. lia.
Qed.

Lemma replaceAt_same i x cs :
  nth_error cs i = Some x -> replaceAt i x cs = cs.
Proof.
  revert i; induction cs as [|c cs IH]; intros [|i]; simpl; auto.
  - now intros [= ->].
  - intros H. now rewrite IH.
Qed.

Lemma stripAndPrune_eq (parent : Node) index v :
  stripAndPrune parent index v
  = setChildren parent (prunedChildren index v (childrenOf parent)).
Proof.
  unfold stripAndPrune, prunedChildren.
  destruct (isEmpty v); [|reflexivity]. now rewrite removeAt_replaceAt.
Qed.

Lemma applyEmptyStyle_propertiesOnly : writesPropertiesOnly applyEmptyStyle.
Proof. intros [ | | | ]; reflexivity. Qed.

Lemma applyAttributes_propertiesOnly attrs :
  writesPropertiesOnly (fun element => applyAttributes element attrs).
Proof.
  intros [ | tag props cs | | ]; try reflexivity.
  unfold applyAttributes. now destruct (applyEntries _ _).
Qed.

Lemma withStyle_propertiesOnly s : writesPropertiesOnly (SrcIndex.withStyle s).
Proof. intros [ | | | ]; reflexivity. Qed.

Lemma withoutProperties_children (n m : Node) :
  withoutProperties n = withoutProperties m -> childrenOf n = childrenOf m.
Proof. destruct n, m; simpl; congruence. Qed.

Lemma map_withoutProperties_replaceAt i n n' cs :
  nth_error cs i = Some n ->
  withoutProperties n' = withoutProperties n ->
  map withoutProperties (replaceAt i n' cs) = map withoutProperties cs.
Proof.
  revert i; induction cs as [|c cs IH]; intros [|i]; simpl; auto.
  - intros [= ->] ->. reflexivity.
  - intros H1 H2. now rewrite IH.
Qed.

(** Writing properties through a reference leaves the child list of the
    parent as it was, up to the properties of the children. *)
Lemma mutateAt_children (parent : Node) ref f :
  writesPropertiesOnly f ->
  map withoutProperties (childrenOf (fst (mutateAt parent ref f)))
  = map withoutProperties (childrenOf parent).
Proof.
  intros Hf. destruct ref as [i|]; simpl.
  - destruct (nth_error (childrenOf parent) i) as [n|] eqn:E; [|reflexivity].
    specialize (Hf n). destruct (f n) as [n' c]. simpl in *.
    rewrite childrenOf_setChildren by (eapply nth_error_hasChildren; eauto).
    eapply map_withoutProperties_replaceAt; eauto.
  - f_equal. apply withoutProperties_children, Hf.
Qed.

(** * The visitor, case by case *)

Lemma effectOf_propertiesOnly captured : writesPropertiesOnly (effectOf captured).
Proof.
  unfold effectOf. destruct (isEmpty _).
  - apply applyEmptyStyle_propertiesOnly.
  - apply applyAttributes_propertiesOnly.
Qed.

Lemma onVisit_no_match (parent : Node) index value :
  nth_error (childrenOf parent) index = Some (Text value) ->
  attributeRegex value = None ->
  onVisit index parent = (parent, Normal).
Proof.
  intros Hn Hm. unfold onVisit. rewrite Hn, Hm. now destruct (hasChildren parent).
Qed.

Lemma onVisit_match (parent : Node) index value captured replaced :
  nth_error (childrenOf parent) index = Some (Text value) ->
  attributeRegex value = Some (captured, replaced) ->
  onVisit index parent
  = let pruned := stripAndPrune parent index (trim replaced) in
    match getTargetElement pruned index with
    | Some ref => mutateAt pruned ref (effectOf captured)
    | None => (pruned, Normal)
    end.
Proof.
  intros Hn Hm. unfold onVisit, effectOf.
  rewrite (nth_error_hasChildren _ _ _ Hn), Hn, Hm. simpl.
  now destruct (isEmpty (trim captured)).
Qed.

Lemma SrcIndex_onVisit_no_match (parent : Node) index value :
  nth_error (childrenOf parent) index = Some (Text value) ->
  attributeRegex value = None ->
  SrcIndex.onVisit index parent = (parent, Normal).
Proof.
  intros Hn Hm. unfold SrcIndex.onVisit. rewrite Hn, Hm. now destruct (hasChildren parent).
Qed.

Lemma SrcIndex_onVisit_match (parent : Node) index value captured replaced :
  nth_error (childrenOf parent) index = Some (Text value) ->
  attributeRegex value = Some (captured, replaced) ->
  SrcIndex.onVisit index parent
  = let pruned := stripAndPrune parent index (trim replaced) in
    match SrcIndex.target pruned index with
    | Some ref => mutateAt pruned ref (SrcIndex.withStyle captured)
    | None => (pruned, Normal)
    end.
Proof.
  intros Hn Hm. unfold SrcIndex.onVisit.
  now rewrite (nth_error_hasChildren _ _ _ Hn), Hn, Hm.
Qed.

(** The child list after a visit that matched: the text child rewritten
    or dropped, every other child in place, with its tag and children. *)
Lemma onVisit_children (parent : Node) index value captured replaced :
  nth_error (childrenOf parent) index = Some (Text value) ->
  attributeRegex value = Some (captured, replaced) ->
  map withoutProperties (childrenOf (fst (onVisit index parent)))
  = map withoutProperties (prunedChildren index (trim replaced) (childrenOf parent)).
Proof.
  intros Hn Hm. rewrite (onVisit_match _ _ _ _ _ Hn Hm). cbv zeta.
  assert (Hc : childrenOf (stripAndPrune parent index (trim replaced))
               = prunedChildren index (trim replaced) (childrenOf parent)).
  { rewrite stripAndPrune_eq. apply childrenOf_setChildren.
    eapply nth_error_hasChildren; eauto. }
  destruct (getTargetElement _ index) as [ref|].
  - rewrite mutateAt_children by apply effectOf_propertiesOnly. now rewrite Hc.
  - simpl. now rewrite Hc.
Qed.

Lemma SrcIndex_onVisit_children (parent : Node) index value captured replaced :
  nth_error (childrenOf parent) index = Some (Text value) ->
  attributeRegex value = Some (captured, replaced) ->
  map withoutProperties (childrenOf (fst (SrcIndex.onVisit index parent)))
  = map withoutProperties (prunedChildren index (trim replaced) (childrenOf parent)).
Proof.
  intros Hn Hm. rewrite (SrcIndex_onVisit_match _ _ _ _ _ Hn Hm). cbv zeta.
  assert (Hc : childrenOf (stripAndPrune parent index (trim replaced))
               = prunedChildren index (trim replaced) (childrenOf parent)).
  { rewrite stripAndPrune_eq. apply childrenOf_setChildren.
    eapply nth_error_hasChildren; eauto. }
  destruct (SrcIndex.target _ index) as [ref|].
  - rewrite mutateAt_children by apply withStyle_propertiesOnly. now rewrite Hc.
  - simpl. now rewrite Hc.
Qed.

(** * Target resolution *)

Lemma elementAt_true cs i :
  elementAt cs i = true <-> exists n, nth_error cs i = Some n /\ isElement n = true.
Proof.
  unfold elementAt. destruct (nth_error cs i) as [n|].
  - split; [intros H; now exists n | intros (m & [= <-] & H); exact H].
  - split; [discriminate | intros (m & H & _); discriminate].
Qed.

Lemma previousIsElement_iff (parent : Node) index :
  previousIsElement parent index
  <-> (negb (index =? 0) && (0 <? length (childrenOf parent))
       && elementAt (childrenOf parent) (index - 1)) = true.
Proof.
  unfold previousIsElement. rewrite !andb_true_iff, negb_true_iff.
  rewrite Nat.eqb_neq, Nat.ltb_lt, elementAt_true. split.
  - intros (Hi & n & Hn & He). repeat split; [lia| |now exists n].
    destruct (childrenOf parent); [|simpl; lia].
    destruct (index - 1); discriminate.
  - intros ((Hi & _) & H). split; [lia | exact H].
Qed.

Lemma soleChildIsElement_iff (parent : Node) :
  soleChildIsElement parent
  <-> (elementAt (childrenOf parent) 0 && (length (childrenOf parent) =? 1)) = true.
Proof.
  unfold soleChildIsElement. rewrite andb_true_iff, Nat.eqb_eq, elementAt_true. split.
  - intros (n & -> & He). split; [now exists n | reflexivity].
  - intros ((n & Hn & He) & Hl). exists n. split; [|exact He].
    destruct (childrenOf parent) as [|c [|c' cs]]; try discriminate.
    simpl in Hn. congruence.
Qed.

Lemma getTargetElement_resolves (parent : Node) index :
  ResolvesTo parent index (getTargetElement parent index).
Proof.
  unfold getTargetElement.
  destruct (negb (index =? 0) && _ && _) eqn:E1.
  - apply resolve_previous, previousIsElement_iff, E1.
  - assert (H1 : ~ previousIsElement parent index).
    { rewrite previousIsElement_iff. congruence. }
    destruct (elementAt _ 0 && _) eqn:E2.
    + apply resolve_sole_child; [assumption|]. apply soleChildIsElement_iff, E2.
    + assert (H2 : ~ soleChildIsElement parent).
      { rewrite soleChildIsElement_iff. congruence. }
      destruct (isElement parent) eqn:E3.
      * now apply resolve_parent.
      * now apply resolve_none.
Qed.

(** The rules name one target. *)
Lemma ResolvesTo_functional (parent : Node) index t t' :
  ResolvesTo parent index t -> ResolvesTo parent index t' -> t = t'.
Proof.
  intros H H'. destruct H; destruct H'; try reflexivity; try contradiction; congruence.
Qed.

Lemma ResolvesTo_iff (parent : Node) index t :
  ResolvesTo parent index t <-> getTargetElement parent index = t.
Proof.
  split.
  - intros H. eapply ResolvesTo_functional; [apply getTargetElement_resolves | exact H].
  - intros <-. apply getTargetElement_resolves.
Qed.

(** The target is an element of the tree. *)
Lemma getTargetElement_deref (parent : Node) index ref :
  getTargetElement parent index = Some ref ->
  exists tag props cs, deref parent ref = Some (Element tag props cs).
Proof.
  intros H. apply ResolvesTo_iff in H. inversion H as [Hp|Hn Hs|Hn Hs He| ]; subst; simpl.
  - destruct Hp as (_ & n & Hn & He). rewrite Hn.
    destruct n; try discriminate. eauto.
  - destruct Hs as (n & Hc & He). rewrite Hc. simpl.
    destruct n; try discriminate. eauto.
  - destruct parent; try discriminate. eauto.
Qed.

Lemma deref_mutateAt (parent : Node) ref f n :
  deref parent ref = Some n ->
  deref (fst (mutateAt parent ref f)) ref = Some (fst (f n)).
Proof.
  destruct ref as [i|]; simpl.
  - intros Hn. rewrite Hn. destruct (f n) as [n' c]. simpl.
    rewrite childrenOf_setChildren by (eapply nth_error_hasChildren; eauto).
    apply nth_error_replaceAt_same. apply nth_error_Some. congruence.
  - now intros [= ->].
Qed.

Lemma snd_mutateAt_deref (parent : Node) ref f n :
  deref parent ref = Some n -> snd (mutateAt parent ref f) = snd (f n).
Proof.
  destruct ref as [i|]; simpl.
  - intros Hn. rewrite Hn. now destruct (f n).
  - now intros [= ->].
Qed.

Lemma snd_mutateAt (parent : Node) ref f :
  (forall n, snd (f n) = Normal) -> snd (mutateAt parent ref f) = Normal.
Proof.
  intros Hf. destruct ref as [i|]; simpl; [|apply Hf].
  destruct (nth_error _ i) as [n|]; [|reflexivity].
  specialize (Hf n). now destruct (f n).
Qed.

(** C1: when the text child at [index] carries an annotation, the visit
    writes its effect through the reference that [getTargetElement]
    returns on the parent as it stands after the text was stripped and
    pruned, and that reference is the one the four rules name, tried in
    order: the previous sibling when the index is positive and that
    sibling is an element; else the sole child when it is an element;
    else the parent when it is an element; else none. *)
Theorem C1_target_resolution (parent : Node) (index : nat)
    (value body rest : jsstring) :
  nth_error (childrenOf parent) index = Some (Text value) ->
  value = ch_lbrace :: body ++ ch_rbrace :: rest ->
  ~ In ch_rbrace body ->
  let pruned :=
    setChildren parent (prunedChildren index (trim rest) (childrenOf parent)) in
  (forall target,
      ResolvesTo pruned index target <-> getTargetElement pruned index = target)
  /\ onVisit index parent
     = match getTargetElement pruned index with
       | Some ref => mutateAt pruned ref (effectOf body)
       | None => (pruned, Normal)
       end.
Proof.
  intros Hn Hv Hb pruned. split.
  - intros target. apply ResolvesTo_iff.
  - assert (Hm : attributeRegex value = Some (body, rest))
      by (apply attributeRegex_Some; auto).
    rewrite (onVisit_match _ _ _ _ _ Hn Hm). cbv zeta.
    now rewrite stripAndPrune_eq.
Qed.

Lemma C1_target_resolution_witness :
  onVisit 1 postElementParagraph
  = (el "p" [ styled "strong" "color: red; font-weight: 900;" [txt "Important text"];
              txt "that needs attention" ], Normal).
Proof.
  apply (proj2 (C1_target_resolution postElementParagraph 1 _
                  (str "color: red; font-weight: 900;")
                  (str " that needs attention")
                  eq_refl eq_refl ltac:(not_in_string))).
Defined.

(** The visitor of [src/index.ts] takes the first child whenever it is
    an element, also when other children remain. *)
Example SrcIndex_first_child_among_several :
  let parent := el "div" [ el "em" [txt "a"]; txt "b"; txt "{color: red;}c" ] in
  SrcIndex.onVisit 2 parent
  = (el "div" [ styled "em" "color: red;" [txt "a"]; txt "b"; txt "c" ], Normal)
  /\ onVisit 2 parent
     = (styled "div" "color: red;" [ el "em" [txt "a"]; txt "b"; txt "c" ], Normal).
Proof. split; reflexivity. Qed.

(** It replaces the style of its target by the text between the
    braces, as it stands. *)
Example SrcIndex_replaces_style :
  SrcIndex.onVisit 0 styledParagraph
  = (styled "p" "color: red; font-size: 14px;" [txt "Text content"], Normal).
Proof. reflexivity. Qed.

(** * Visits without annotation, visits without target, empty braces *)

(** C2: a text child whose value does not start with an opening brace
    followed, anywhere before its end, by a closing brace is visited
    without effect: the parent, with all its children and properties,
    comes back as it was.  The same holds of the visitor of
    [src/index.ts]. *)
Theorem C2_unmatched_text_is_left_alone (parent : Node) (index : nat)
    (value : jsstring) :
  nth_error (childrenOf parent) index = Some (Text value) ->
  (forall body rest, value <> ch_lbrace :: body ++ ch_rbrace :: rest) ->
  onVisit index parent = (parent, Normal)
  /\ SrcIndex.onVisit index parent = (parent, Normal).
Proof.
  intros Hn Hv. apply attributeRegex_None in Hv. split.
  - eapply onVisit_no_match; eauto.
  - eapply SrcIndex_onVisit_no_match; eauto.
Qed.

Lemma C2_unmatched_text_is_left_alone_witness :
  (onVisit 0 middleParagraph = (middleParagraph, Normal)
   /\ SrcIndex.onVisit 0 middleParagraph = (middleParagraph, Normal))
  /\ (onVisit 0 unterminatedParagraph = (unterminatedParagraph, Normal)
      /\ SrcIndex.onVisit 0 unterminatedParagraph = (unterminatedParagraph, Normal)).
Proof.
  split.
  - apply (C2_unmatched_text_is_left_alone middleParagraph 0 _ eq_refl).
    apply attributeRegex_None. reflexivity.
  - apply (C2_unmatched_text_is_left_alone unterminatedParagraph 0 _ eq_refl).
    apply attributeRegex_None. reflexivity.
Defined.

(** C8: after the visit of a text child that starts with an annotation,
    the child list is the old one with that child's value replaced by
    the rest of the value, trimmed, or with that child removed when the
    trimmed rest is empty; every other child is in place, with its tag,
    text and children.  The same holds of the visitor of [src/index.ts]. *)
Theorem C8_text_stripped_and_pruned (parent : Node) (index : nat)
    (value body rest : jsstring) :
  nth_error (childrenOf parent) index = Some (Text value) ->
  value = ch_lbrace :: body ++ ch_rbrace :: rest ->
  ~ In ch_rbrace body ->
  let newValue := trim rest in
  let expected :=
    if isEmpty newValue then removeAt index (childrenOf parent)
    else replaceAt index (Text newValue) (childrenOf parent) in
  map withoutProperties (childrenOf (fst (onVisit index parent)))
  = map withoutProperties expected
  /\ map withoutProperties (childrenOf (fst (SrcIndex.onVisit index parent)))
     = map withoutProperties expected.
Proof.
  intros Hn Hv Hb newValue expected.
  assert (Hm : attributeRegex value = Some (body, rest))
    by (apply attributeRegex_Some; auto).
  split.
  - apply (onVisit_children _ _ _ _ _ Hn Hm).
  - apply (SrcIndex_onVisit_children _ _ _ _ _ Hn Hm).
Qed.

Lemma C8_text_stripped_and_pruned_witness :
  map withoutProperties (childrenOf (fst (onVisit 1 twoAnnotations)))
  = [ Element (str "em") None [txt "Italic text"];
      txt "and";
      Element (str "strong") None [txt "bold text"];
      txt "{font-weight: bold; color: green;} together" ]
  /\ map withoutProperties
       (childrenOf (fst (onVisit 0 (el "div" [txt "{margin: 10px;}   "]))))
     = [].
Proof.
  split.
  - apply (proj1 (C8_text_stripped_and_pruned twoAnnotations 1 _
                    (str "font-style: italic; color: blue;") (str " and ")
                    eq_refl eq_refl ltac:(not_in_string))).
  - apply (proj1 (C8_text_stripped_and_pruned (el "div" [txt "{margin: 10px;}   "]) 0 _
                    (str "margin: 10px;") (str "   ")
                    eq_refl eq_refl ltac:(not_in_string))).
Defined.

(** C10: when the resolver finds no target on the parent as it stands
    after stripping and pruning, the visit still strips the annotation
    and prunes the text, and that is all it does: no property of any
    node is written.  The same holds of the visitor of [src/index.ts]
    with its own choice of target. *)
Theorem C10_no_target_text_still_stripped (parent : Node) (index : nat)
    (value body rest : jsstring) :
  nth_error (childrenOf parent) index = Some (Text value) ->
  value = ch_lbrace :: body ++ ch_rbrace :: rest ->
  ~ In ch_rbrace body ->
  let pruned :=
    setChildren parent
      (if isEmpty (trim rest) then removeAt index (childrenOf parent)
       else replaceAt index (Text (trim rest)) (childrenOf parent)) in
  (getTargetElement pruned index = None ->
   onVisit index parent = (pruned, Normal))
  /\ (SrcIndex.target pruned index = None ->
      SrcIndex.onVisit index parent = (pruned, Normal)).
Proof.
  intros Hn Hv Hb pruned.
  assert (Hm : attributeRegex value = Some (body, rest))
    by (apply attributeRegex_Some; auto).
  assert (Hp : stripAndPrune parent index (trim rest) = pruned)
    by apply stripAndPrune_eq.
  split; intros Ht.
  - rewrite (onVisit_match _ _ _ _ _ Hn Hm). cbv zeta. now rewrite Hp, Ht.
  - rewrite (SrcIndex_onVisit_match _ _ _ _ _ Hn Hm). cbv zeta. now rewrite Hp, Ht.
Qed.

Lemma C10_no_target_text_still_stripped_witness :
  onVisit 0 rootWithLeadingText
  = (Root [ txt "Hello"; el "p" [txt "world"] ], Normal).
Proof.
  apply (proj1 (C10_no_target_text_still_stripped rootWithLeadingText 0 _
                  (str "color: red;") (str "Hello")
                  eq_refl eq_refl ltac:(not_in_string)) eq_refl).
Defined.

(** The first child of the root is not always without target: when the
    text is pruned and one element remains, that element is the target. *)
Example leading_text_of_root_pruned :
  onVisit 0 (Root [ txt "{color: red;}"; el "p" [txt "world"] ])
  = (Root [ styled "p" "color: red;" [txt "world"] ], Normal).
Proof. reflexivity. Qed.

Lemma applyEmptyStyle_Normal n : snd (applyEmptyStyle n) = Normal.
Proof. now destruct n. Qed.

(** C7: when the body between the braces is empty after trimming, the
    visit ends normally, strips the annotation like any other, and
    writes the empty string as the style of the resolved target,
    whatever style it had, leaving its other properties; without target
    nothing but the text changes; and the parent after the visit differs
    from the parent before, unlike after a visit without annotation. *)
Theorem C7_empty_braces_force_empty_style (parent : Node) (index : nat)
    (value body rest : jsstring) :
  nth_error (childrenOf parent) index = Some (Text value) ->
  value = ch_lbrace :: body ++ ch_rbrace :: rest ->
  ~ In ch_rbrace body ->
  trim body = [] ->
  let pruned :=
    setChildren parent
      (if isEmpty (trim rest) then removeAt index (childrenOf parent)
       else replaceAt index (Text (trim rest)) (childrenOf parent)) in
  let after := fst (onVisit index parent) in
  snd (onVisit index parent) = Normal
  /\ map withoutProperties (childrenOf after)
     = map withoutProperties (childrenOf pruned)
  /\ (forall ref tag props cs,
         getTargetElement pruned index = Some ref ->
         deref pruned ref = Some (Element tag props cs) ->
         exists props',
           deref after ref = Some (Element tag (Some props') cs)
           /\ get key_style props' = Some (PString [])
           /\ forall k, k <> key_style ->
                        get k props' = get k (propertiesOrEmpty props))
  /\ (getTargetElement pruned index = None -> after = pruned)
  /\ after <> parent.
Proof.
  intros Hn Hv Hb He pruned after.
  assert (Hm : attributeRegex value = Some (body, rest))
    by (apply attributeRegex_Some; auto).
  assert (Hh : hasChildren parent = true)
    by (eapply nth_error_hasChildren; eauto).
  assert (Hp : stripAndPrune parent index (trim rest) = pruned)
    by apply stripAndPrune_eq.
  assert (Hc : childrenOf pruned
               = prunedChildren index (trim rest) (childrenOf parent))
    by (apply childrenOf_setChildren, Hh).
  assert (Hk : map withoutProperties (childrenOf after)
               = map withoutProperties (childrenOf pruned)).
  { unfold after. rewrite (onVisit_children _ _ _ _ _ Hn Hm). now rewrite Hc. }
  assert (Ho : onVisit index parent
               = match getTargetElement pruned index with
                 | Some ref => mutateAt pruned ref applyEmptyStyle
                 | None => (pruned, Normal)
                 end).
  { rewrite (onVisit_match _ _ _ _ _ Hn Hm). cbv zeta. rewrite Hp.
    unfold effectOf. now rewrite He. }
  repeat split.
  - rewrite Ho. destruct (getTargetElement pruned index); [|reflexivity].
    apply snd_mutateAt, applyEmptyStyle_Normal.
  - exact Hk.
  - intros ref tag props cs Hr Hd. unfold after. rewrite Ho, Hr.
    rewrite (deref_mutateAt _ _ _ _ Hd). simpl.
    eexists. split; [reflexivity|]. split.
    + apply get_set_same.
    + intros k Hne. now apply get_set_other.
  - intros Hr. unfold after. now rewrite Ho, Hr.
  - intros Heq. rewrite Heq, Hc in Hk. unfold prunedChildren in Hk.
    destruct (isEmpty (trim rest)).
    + apply (f_equal (@length Node)) in Hk. rewrite !length_map in Hk.
      assert (Hl : index < length (childrenOf parent))
        by (apply nth_error_Some; congruence).
      apply length_removeAt in Hl. lia.
    + apply (f_equal (fun l => nth_error l index)) in Hk.
      rewrite !nth_error_map, Hn in Hk.
      rewrite nth_error_replaceAt_same in Hk
        by (apply nth_error_Some; congruence).
      simpl in Hk. injection Hk as Hk.
      apply (f_equal (@length char)) in Hk. rewrite Hv in Hk.
      pose proof (trim_length rest) as Hl.
      simpl in Hk. rewrite length_app in Hk. simpl in Hk. lia.
Qed.

Lemma C7_empty_braces_force_empty_style_witness :
  onVisit 0 emptyBracesParagraph
  = (styled "p" "" [txt "Some text here"], Normal)
  /\ fst (onVisit 0 emptyBracesParagraph) <> emptyBracesParagraph.
Proof.
  pose proof (C7_empty_braces_force_empty_style emptyBracesParagraph 0 _
                [] (str "Some text here") eq_refl eq_refl ltac:(not_in_string) eq_refl)
    as (_ & _ & _ & _ & Hd).
  split; [reflexivity | exact Hd].
Defined.

(** * The tokenizer *)

Lemma span_app p s : s = fst (span p s) ++ snd (span p s).
Proof.
  induction s as [|c s IH]; simpl; [reflexivity|].
  destruct (p c); [|reflexivity].
  destruct (span p s) as [run rest]. simpl in *. now f_equal.
Qed.

Lemma span_stop p s run x rest : span p s = (run, x :: rest) -> p x = false.
Proof.
  revert run. induction s as [|c s IH]; intros run; simpl; [discriminate|].
  destruct (p c) eqn:E.
  - destruct (span p s) as [run' rest'] eqn:Es. intros [= <- ->]. now apply (IH run').
  - now intros [= <- <- <-].
Qed.

Lemma quotedRun_app q s piece rest :
  quotedRun q s = Some (piece, rest) -> s = piece ++ rest /\ piece <> [].
Proof.
  unfold quotedRun. destruct s as [|c s]; [discriminate|].
  destruct (N.eqb c q) eqn:E; [|discriminate].
  apply N.eqb_eq in E. subst c.
  pose proof (span_app (fun x => negb (N.eqb x q)) s) as Happ.
  destruct (span (fun x => negb (N.eqb x q)) s) as [body [|x rest']] eqn:Es;
    [discriminate|].
  intros [= <- <-]. apply span_stop in Es.
  apply negb_false_iff, N.eqb_eq in Es. subst x.
  simpl in Happ. split; [|discriminate].
  simpl. rewrite <- app_assoc. simpl. now f_equal.
Qed.

(** A round of the group consumes at least one character. *)
Lemma matchAlternative_app s piece rest :
  matchAlternative s = Some (piece, rest) -> s = piece ++ rest /\ piece <> [].
Proof.
  unfold matchAlternative.
  pose proof (span_app isPlain s) as Happ.
  destruct (span isPlain s) as [[|c run] rest'].
  - destruct (quotedRun ch_dquote s) as [[p r]|] eqn:Eq.
    + intros [= <- <-]. now apply quotedRun_app in Eq.
    + apply quotedRun_app.
  - intros [= <- <-]. split; [exact Happ | discriminate].
Qed.

Lemma matchToken_app fuel s : s = fst (matchToken fuel s) ++ snd (matchToken fuel s).
Proof.
  revert s. induction fuel as [|fuel IH]; intros s; simpl; [reflexivity|].
  destruct (matchAlternative s) as [[piece rest]|] eqn:E; [|reflexivity].
  apply matchAlternative_app in E as [-> _].
  specialize (IH rest). destruct (matchToken fuel rest) as [more rest'].
  simpl in *. rewrite <- app_assoc. now f_equal.
Qed.

Lemma app_length_lt (piece rest : jsstring) :
  piece <> [] -> length rest < length (piece ++ rest).
Proof.
  intros H. rewrite length_app. destruct piece; [contradiction | simpl; lia].
Qed.

(** Greedy repetition of the group: with fuel for every character, more
    fuel changes nothing. *)
Lemma matchToken_fuel fuel fuel' s :
  length s <= fuel -> length s <= fuel' ->
  matchToken fuel s = matchToken fuel' s.
Proof.
  revert fuel' s. induction fuel as [|fuel IH]; intros fuel' s Hf Hf'.
  - destruct s; [|simpl in Hf; lia]. destruct fuel'; reflexivity.
  - destruct fuel' as [|fuel'].
    + destruct s; [|simpl in Hf'; lia]. reflexivity.
    + simpl. destruct (matchAlternative s) as [[piece rest]|] eqn:E; [|reflexivity].
      apply matchAlternative_app in E as [-> Hne].
      pose proof (app_length_lt piece rest Hne) as Hl.
      rewrite (IH fuel' rest) by lia. reflexivity.
Qed.

(** The global match: with fuel for every character, more fuel changes
    nothing; [tokenize] returns. *)
Lemma matchAll_fuel fuel fuel' s :
  length s <= fuel -> length s <= fuel' ->
  matchAll fuel s = matchAll fuel' s.
Proof.
  revert fuel' s. induction fuel as [|fuel IH]; intros fuel' s Hf Hf'.
  - destruct s; [|simpl in Hf; lia]. destruct fuel'; reflexivity.
  - destruct fuel' as [|fuel'].
    + destruct s; [|simpl in Hf'; lia]. reflexivity.
    + destruct s as [|c s]; [reflexivity|].
      cbn [matchAll].
      pose proof (matchToken_app (length (c :: s)) (c :: s)) as Happ.
      destruct (matchToken (length (c :: s)) (c :: s)) as [[|x token] rest].
      * apply IH; simpl in *; lia.
      * f_equal. simpl fst in Happ. simpl snd in Happ.
        apply (f_equal (@length char)) in Happ.
        rewrite length_app in Happ. simpl in Happ, Hf, Hf'.
        apply IH; lia.
Qed.

Lemma tokenize_fuel s fuel :
  length s <= fuel -> matchAll fuel s = tokenize s.
Proof. intros H. apply matchAll_fuel; [exact H | reflexivity]. Qed.

(** * The classifier *)

Lemma whileLoop_cursor tokens fuel j d : j <= fst (whileLoop tokens fuel j d).
Proof.
  revert j d. induction fuel as [|fuel IH]; intros j d; simpl; [lia|].
  destruct (nth_error tokens j) as [t|]; simpl; [|lia].
  destruct (breaksDeclaration t); simpl; [lia|].
  specialize (IH (S j) (d ++ ch_space :: t)). lia.
Qed.

Lemma breaksDeclaration_absorbable t : breaksDeclaration t = negb (absorbable t).
Proof.
  unfold breaksDeclaration, absorbable, isAttributeToken.
  destruct (startsWith ch_dot t), (startsWith ch_hash t),
    (includes ch_equals t), (includes ch_colon t); reflexivity.
Qed.

Lemma nth_error_skipn_head (tokens : list jsstring) j :
  skipn j tokens
  = match nth_error tokens j with
    | Some t => t :: skipn (S j) tokens
    | None => []
    end.
Proof.
  revert j. induction tokens as [|t tokens IH]; intros [|j]; simpl; auto.
Qed.

Lemma join_cons_app (d : jsstring) (ts : list jsstring) (t : jsstring) :
  join [ch_space] (d :: ts) ++ ch_space :: t = join [ch_space] (d :: ts ++ [t]).
Proof.
  revert d. induction ts as [|x ts IH]; intros d.
  - reflexivity.
  - change (join [ch_space] (d :: x :: ts)) with (d ++ [ch_space] ++ join [ch_space] (x :: ts)).
    change (join [ch_space] (d :: (x :: ts) ++ [t]))
      with (d ++ [ch_space] ++ join [ch_space] (x :: ts ++ [t])).
    rewrite <- IH. now rewrite <- !app_assoc.
Qed.

Lemma whileLoop_S tokens fuel j d :
  whileLoop tokens (S fuel) j d
  = match nth_error tokens j with
    | None => (j, d)
    | Some nextToken =>
        if breaksDeclaration nextToken then (j, d)
        else whileLoop tokens fuel (S j) (d ++ ch_space :: nextToken)
    end.
Proof. reflexivity. Qed.

(** The inner loop, with fuel for every token left, stops after the
    longest run of absorbable tokens and has joined them with spaces. *)
Lemma whileLoop_absorbs tokens fuel j (first : jsstring) (taken : list jsstring) :
  length tokens - j <= fuel ->
  whileLoop tokens fuel j (join [ch_space] (first :: taken))
  = (j + length (absorbedTokens (skipn j tokens)),
     join [ch_space] (first :: taken ++ absorbedTokens (skipn j tokens))).
Proof.
  revert j taken. induction fuel as [|fuel IH]; intros j taken Hf.
  - rewrite (nth_error_skipn_head tokens j).
    assert (Hn : nth_error tokens j = None) by (apply nth_error_None; lia).
    rewrite Hn. unfold whileLoop, absorbedTokens, length.
    rewrite app_nil_r. f_equal. lia.
  - rewrite whileLoop_S, (nth_error_skipn_head tokens j).
    destruct (nth_error tokens j) as [t|] eqn:Hn.
    + rewrite breaksDeclaration_absorbable.
      cbn [absorbedTokens]. destruct (absorbable t); cbn [negb length].
      * rewrite join_cons_app.
        assert (Hl : j < length tokens) by (apply nth_error_Some; congruence).
        rewrite IH by lia. rewrite <- app_assoc. cbn [app]. f_equal. lia.
      * rewrite app_nil_r. f_equal. lia.
    + cbn [absorbedTokens length]. rewrite app_nil_r. f_equal. lia.
Qed.

(** The outer loop does not depend on the fuel once there is fuel for
    every token left. *)
Lemma forLoop_fuel tokens fuel fuel' i st :
  length tokens - i <= fuel -> length tokens - i <= fuel' ->
  forLoop tokens fuel i st = forLoop tokens fuel' i st.
Proof.
  revert fuel' i st. induction fuel as [|fuel IH]; intros fuel' i st Hf Hf'.
  - assert (Hn : nth_error tokens i = None) by (apply nth_error_None; lia).
    destruct fuel'; simpl; [reflexivity | now rewrite Hn].
  - simpl. destruct (nth_error tokens i) as [token|] eqn:Hn.
    + assert (Hl : i < length tokens) by (apply nth_error_Some; congruence).
      destruct fuel' as [|fuel']; [lia|]. simpl. rewrite Hn.
      destruct (startsWith ch_dot token); [apply IH; lia|].
      destruct (startsWith ch_hash token); [apply IH; lia|].
      destruct (isAttributeToken token); [apply IH; lia|].
      destruct (includes ch_colon token); [|apply IH; lia].
      pose proof (whileLoop_cursor tokens (length tokens) (S i) token) as Hj.
      destruct (whileLoop tokens (length tokens) (S i) token) as [j d].
      simpl in Hj. apply IH; lia.
    + destruct fuel'; simpl; [reflexivity | now rewrite Hn].
Qed.

Lemma classifyFrom_step tokens i st token :
  nth_error tokens i = Some token ->
  classifyFrom tokens i st
  = if startsWith ch_dot token then
      classifyFrom tokens (S i) (pushClass (slice1 token) st)
    else if startsWith ch_hash token then
      classifyFrom tokens (S i) (setId (slice1 token) st)
    else if isAttributeToken token then
      classifyFrom tokens (S i)
        (setAttribute (attributeKey token) (attributeValue token) st)
    else if includes ch_colon token then
      let absorbed := absorbedTokens (skipn (S i) tokens) in
      classifyFrom tokens (S i + length absorbed)
        (pushDeclaration
           (finishDeclaration (join [ch_space] (token :: absorbed))) st)
    else classifyFrom tokens (S i) st.
Proof.
  intros Hn.
  assert (Hl : i < length tokens) by (apply nth_error_Some; congruence).
  unfold classifyFrom at 1.
  destruct (length tokens - i) as [|fuel] eqn:Ef; [lia|].
  simpl. rewrite Hn.
  destruct (startsWith ch_dot token); [apply forLoop_fuel; lia|].
  destruct (startsWith ch_hash token); [apply forLoop_fuel; lia|].
  destruct (isAttributeToken token); [apply forLoop_fuel; lia|].
  destruct (includes ch_colon token); [|apply forLoop_fuel; lia].
  pose proof (whileLoop_absorbs tokens (length tokens) (S i) token []) as Hw.
  change (join [ch_space] [token]) with token in Hw.
  rewrite Hw by lia. simpl app. cbv zeta.
  replace (S (S i + length (absorbedTokens (skipn (S i) tokens)) - 1))
    with (S i + length (absorbedTokens (skipn (S i) tokens))) by lia.
  apply forLoop_fuel; lia.
Qed.

Lemma classifyFrom_end tokens i st :
  nth_error tokens i = None -> classifyFrom tokens i st = st.
Proof.
  intros Hn. unfold classifyFrom.
  destruct (length tokens - i); simpl; [reflexivity | now rewrite Hn].
Qed.

Lemma absorbedTokens_prefix following :
  following = absorbedTokens following
              ++ skipn (length (absorbedTokens following)) following.
Proof.
  induction following as [|t rest IH]; simpl; [reflexivity|].
  destruct (absorbable t); simpl; [now f_equal | reflexivity].
Qed.

Lemma absorbedTokens_all following :
  Forall (fun t => absorbable t = true) (absorbedTokens following).
Proof.
  induction following as [|t rest IH]; simpl; [constructor|].
  destruct (absorbable t) eqn:E; constructor; auto.
Qed.

Lemma absorbedTokens_stop following next :
  nth_error following (length (absorbedTokens following)) = Some next ->
  absorbable next = false.
Proof.
  induction following as [|t rest IH]; simpl; [discriminate|].
  destruct (absorbable t) eqn:E; simpl; [exact IH|]. now intros [= <-].
Qed.

(** C5: when the loop is at a token that has a colon and starts with
    neither a dot nor a hash, the tokens after it split into the longest
    run of absorbable tokens and what follows; the declaration is the
    token and the run joined with single spaces, trimmed, with a
    semicolon added exactly when it does not end with one; it is
    appended to the list of declarations; and the loop goes on at the
    first token after the run, which is not absorbable. *)
Theorem C5_declaration_absorbs_following_tokens (tokens : list jsstring)
    (i : nat) (token : jsstring) (st : LoopState) :
  nth_error tokens i = Some token ->
  startsWith ch_dot token = false ->
  startsWith ch_hash token = false ->
  includes ch_colon token = true ->
  let absorbed := absorbedTokens (skipn (S i) tokens) in
  let declaration := trim (join [ch_space] (token :: absorbed)) in
  let finished :=
    if endsWith ch_semicolon declaration then declaration
    else declaration ++ [ch_semicolon] in
  skipn (S i) tokens = absorbed ++ skipn (S i + length absorbed) tokens
  /\ Forall (fun t => absorbable t = true) absorbed
  /\ (forall next, nth_error tokens (S i + length absorbed) = Some next ->
                   absorbable next = false)
  /\ classifyFrom tokens i st
     = classifyFrom tokens (S i + length absorbed) (pushDeclaration finished st)
  /\ cssProperties (pushDeclaration finished st) = cssProperties st ++ [finished]
  /\ result (pushDeclaration finished st) = result st.
Proof.
  intros Hn Hd Hh Hc absorbed declaration finished.
  split; [|split; [|split; [|split; [|split; reflexivity]]]].
  - replace (skipn (S i + length absorbed) tokens)
      with (skipn (length absorbed) (skipn (S i) tokens))
      by (rewrite skipn_skipn; f_equal; lia).
    apply absorbedTokens_prefix.
  - apply absorbedTokens_all.
  - intros next Hnext. apply (absorbedTokens_stop (skipn (S i) tokens)).
    now rewrite nth_error_skipn.
  - rewrite (classifyFrom_step _ _ _ _ Hn), Hd, Hh, Hc.
    assert (Ha : isAttributeToken token = false).
    { unfold isAttributeToken. rewrite Hc. apply andb_false_r. }
    rewrite Ha. reflexivity.
Qed.

Lemma C5_declaration_absorbs_following_tokens_witness :
  let tokens := [str ".card"; str "border:"; str "1px"; str "solid"; str "black";
                 str "color:"; str "red;"] in
  classifyFrom tokens 1 (pushClass (str "card") initialState)
  = classifyFrom tokens 5
      (pushDeclaration (str "border: 1px solid black;")
         (pushClass (str "card") initialState))
  /\ tokenize (str ".card border: 1px solid black color: red;") = tokens
  /\ parseAttributes (str ".card border: 1px solid black color: red;")
     = {| classes := [str "card"]; id := None;
          attributes := [(key_style, str "border: 1px solid black; color: red;")] |}.
Proof.
  intros tokens. split; [|split; reflexivity].
  pose proof (C5_declaration_absorbs_following_tokens tokens 1 (str "border:")
                (pushClass (str "card") initialState)
                eq_refl eq_refl eq_refl eq_refl) as (_ & _ & _ & H & _).
  exact H.
Defined.

(** * Attribute tokens *)

Lemma split_nonempty c s : split c s <> [].
Proof.
  destruct s as [|x s]; simpl; [discriminate|].
  destruct (N.eqb x c); [discriminate|]. destruct (split c s); discriminate.
Qed.

Lemma split_first c (key rest : jsstring) :
  ~ In c key -> split c (key ++ c :: rest) = key :: split c rest.
Proof.
  induction key as [|x key IH]; simpl; intros Hn.
  - now rewrite N.eqb_refl.
  - destruct (N.eqb x c) eqn:E.
    + apply N.eqb_eq in E. exfalso. apply Hn. now left.
    + rewrite IH; [reflexivity|]. intros H. apply Hn. now right.
Qed.

Lemma join_split c s : join [c] (split c s) = s.
Proof.
  induction s as [|x s IH]; simpl; [reflexivity|].
  destruct (N.eqb x c) eqn:E.
  - apply N.eqb_eq in E. subst x.
    destruct (split c s) as [|p ps] eqn:Es; [now apply split_nonempty in Es|].
    change (join [c] ([] :: p :: ps)) with ([] ++ [c] ++ join [c] (p :: ps)).
    now rewrite IH.
  - destruct (split c s) as [|p ps] eqn:Es; [now apply split_nonempty in Es|].
    destruct ps as [|q qs].
    + simpl in *. now rewrite IH.
    + change (join [c] ((x :: p) :: q :: qs))
        with (x :: (p ++ [c] ++ join [c] (q :: qs))).
      change (join [c] (p :: q :: qs)) with (p ++ [c] ++ join [c] (q :: qs)) in IH.
      now rewrite IH.
Qed.

(** A string with the character [c] splits at its first [c]. *)
Lemma includes_first c s :
  includes c s = true ->
  exists key rest, s = key ++ c :: rest /\ ~ In c key.
Proof.
  induction s as [|x s IH]; simpl; [discriminate|].
  destruct (N.eqb c x) eqn:E.
  - apply N.eqb_eq in E. subst x. intros _. exists [], s. simpl. auto.
  - apply N.eqb_neq in E. simpl. intros H.
    destruct (IH H) as (key & rest & -> & Hn).
    exists (x :: key), rest. split; [reflexivity|].
    simpl. intros [Hx|Hx]; [congruence | contradiction].
Qed.

Lemma attributeKey_first (key rest : jsstring) :
  ~ In ch_equals key -> attributeKey (key ++ ch_equals :: rest) = key.
Proof. intros Hn. unfold attributeKey. now rewrite split_first. Qed.

Lemma withoutTrailingQuote_eq (v : jsstring) :
  match rev v with
  | c :: r => if isQuote c then rev r else v
  | [] => v
  end = withoutTrailingQuote v.
Proof.
  unfold withoutTrailingQuote, withoutLeadingQuote.
  destruct (rev v) as [|c r] eqn:E.
  - rewrite <- (rev_involutive v), E. reflexivity.
  - destruct (isQuote c); [reflexivity|].
    rewrite <- E. now rewrite rev_involutive.
Qed.

Lemma stripQuotes_eq v :
  stripQuotes v = withoutTrailingQuote (withoutLeadingQuote v).
Proof. unfold stripQuotes. apply withoutTrailingQuote_eq. Qed.

Lemma attributeValue_first (key rest : jsstring) :
  ~ In ch_equals key ->
  attributeValue (key ++ ch_equals :: rest)
  = withoutTrailingQuote (withoutLeadingQuote rest).
Proof.
  intros Hn. unfold attributeValue, valueParts.
  now rewrite split_first, join_split, stripQuotes_eq.
Qed.

(** C6, amended: at a token that starts with neither a dot nor a hash,
    has an equals sign and no colon, the loop stores an attribute.  The
    key is the text before the first equals sign.  The value is the
    text after it, without a quote character at its start when there is
    one, and without a quote character at its end when there is one,
    each on its own.  The entry replaces an earlier entry of the same key
    and leaves the other keys; the key [__proto__] leaves no entry. *)
Theorem C6_attribute_token_amended (tokens : list jsstring) (i : nat)
    (token : jsstring) (st : LoopState) :
  nth_error tokens i = Some token ->
  startsWith ch_dot token = false ->
  startsWith ch_hash token = false ->
  includes ch_equals token = true ->
  includes ch_colon token = false ->
  exists key remainder,
    token = key ++ ch_equals :: remainder
    /\ ~ In ch_equals key
    /\ let value := withoutTrailingQuote (withoutLeadingQuote remainder) in
       let st' := setAttribute key value st in
       classifyFrom tokens i st = classifyFrom tokens (S i) st'
       /\ (key <> key_proto -> get key (attributes (result st')) = Some value)
       /\ (forall k, k <> key ->
             get k (attributes (result st')) = get k (attributes (result st)))
       /\ classes (result st') = classes (result st)
       /\ id (result st') = id (result st)
       /\ cssProperties st' = cssProperties st.
Proof.
  intros Hn Hd Hh He Hc.
  destruct (includes_first _ _ He) as (key & remainder & Ht & Hk).
  exists key, remainder. split; [exact Ht|]. split; [exact Hk|].
  cbv zeta. split; [|split; [|split; [|repeat split]]].
  - rewrite (classifyFrom_step _ _ _ _ Hn), Hd, Hh.
    unfold isAttributeToken. rewrite He, Hc. simpl.
    rewrite Ht. now rewrite attributeKey_first, attributeValue_first.
  - intros Hp. now apply get_assign_same.
  - intros k Hne. now apply get_assign_other.
Qed.

Lemma C6_attribute_token_amended_witness :
  exists key remainder,
    str "data-x='a=b'" = key ++ ch_equals :: remainder
    /\ ~ In ch_equals key
    /\ classifyFrom [str "data-x='a=b'"] 0 initialState
       = classifyFrom [str "data-x='a=b'"] 1
           (setAttribute key
              (withoutTrailingQuote (withoutLeadingQuote remainder)) initialState).
Proof.
  destruct (C6_attribute_token_amended [str "data-x='a=b'"] 0 (str "data-x='a=b'")
              initialState eq_refl eq_refl eq_refl eq_refl eq_refl)
    as (key & remainder & Ht & Hk & Hs & _).
  exists key, remainder. auto.
Defined.

Example attribute_with_equals_in_value :
  attributes (parseAttributes (str "data-x='a=b'")) = [(str "data-x", str "a=b")].
Proof. reflexivity. Qed.

(** C6 as stated fails: a quote at the start of the value is removed
    although the value does not end with a quote.  The token
    [a='x'y] stores [x'y]; stripping a matching pair only would keep
    ['x'y]. *)
Lemma C6_counterexample :
  let token := str "a='x'y" in
  tokenize token = [token]
  /\ includes ch_equals token = true
  /\ includes ch_colon token = false
  /\ attributes (parseAttributes token) = [(str "a", str "x'y")]
  /\ withoutMatchingQuotes (str "'x'y") = str "'x'y"
  /\ attributes (parseAttributes token)
     <> [(str "a", withoutMatchingQuotes (str "'x'y"))].
Proof. repeat split; discriminate. Qed.

(** A token that starts with a dot is a class even when it has an
    equals sign and no colon. *)
Example dot_token_with_equals :
  parseAttributes (str ".a=b")
  = {| classes := [str "a=b"]; id := None; attributes := [] |}.
Proof. reflexivity. Qed.

(** * The merge *)

Lemma get_Some_keys (V : Type) (key : jsstring) (o : object V) v :
  get key o = Some v -> In key (keys o).
Proof.
  intros H. destruct (in_dec (list_eq_dec N.eq_dec) key (keys o)) as [Hi|Hi]; [exact Hi|].
  apply get_None_keys in Hi. congruence.
Qed.

(** The loop over the entries leaves the keys that are not among them. *)
Lemma applyEntries_other entries props k :
  ~ In k (keys entries) ->
  get k (fst (applyEntries entries props)) = get k props.
Proof.
  revert props. induction entries as [|[key value] rest IH]; intros props Hk; simpl.
  - reflexivity.
  - simpl in Hk.
    assert (Hne : k <> key) by (intros ->; apply Hk; now left).
    assert (Hr : ~ In k (keys rest)) by (intros H; apply Hk; now right).
    destruct (string_eqb key key_style) eqn:E.
    + apply string_eqb_eq in E. subst key.
      destruct (get key_style props) as [[s|a]|]; simpl.
      * rewrite IH by exact Hr. now apply get_set_other.
      * reflexivity.
      * rewrite IH by exact Hr. now apply get_set_other.
    + rewrite IH by exact Hr. now apply get_assign_other.
Qed.

(** With one entry per key and no array under [style], the loop ends
    normally, merges the style entry into the existing style and
    overwrites the other keys. *)
Lemma applyEntries_get entries props existing :
  NoDup (keys entries) ->
  ExistingStyle (Some props) existing ->
  snd (applyEntries entries props) = Normal
  /\ forall k,
       get k (fst (applyEntries entries props))
       = match get k entries with
         | None => get k props
         | Some v =>
             if string_eqb k key_style
             then Some (PString (existing ++ separator existing ++ v))
             else if string_eqb k key_proto then get k props
             else Some (PString v)
         end.
Proof.
  revert props existing.
  induction entries as [|[key value] rest IH]; intros props existing Hnd Hex.
  - simpl. auto.
  - simpl in Hnd. inversion Hnd as [|? ? Hnotin Hnd']; subst.
    assert (Hrest : get key rest = None) by (now apply get_None_keys).
    cbn [applyEntries].
    destruct (string_eqb key key_style) eqn:E.
    + apply string_eqb_eq in E. subst key.
      set (merged := PString (existing ++ separator existing ++ value)).
      assert (Hgo : applyEntries ((key_style, value) :: rest) props
                    = applyEntries rest (set key_style merged props)).
      { cbn [applyEntries]. rewrite string_eqb_refl.
        inversion Hex as [Hg|s Hg]; simpl in Hg; rewrite Hg; subst; reflexivity. }
      cbn [applyEntries] in Hgo. rewrite string_eqb_refl in Hgo. rewrite Hgo.
      destruct (IH (set key_style merged props) (existing ++ separator existing ++ value) Hnd')
        as [Hc Hget].
      { apply existing_string. simpl. apply get_set_same. }
      split; [exact Hc|]. intros k. rewrite Hget. cbn [get].
      destruct (string_eqb key_style k) eqn:Ek.
      * apply string_eqb_eq in Ek. subst k. rewrite Hrest, string_eqb_refl.
        apply get_set_same.
      * apply string_eqb_neq in Ek.
        destruct (get k rest) as [v|] eqn:Er.
        -- destruct (string_eqb k key_style) eqn:Ek'.
           ++ apply string_eqb_eq in Ek'. congruence.
           ++ destruct (string_eqb k key_proto); [|reflexivity].
              apply get_set_other. congruence.
        -- apply get_set_other. congruence.
    + apply string_eqb_neq in E.
      destruct (IH (assign key (PString value) props) existing Hnd') as [Hc Hget].
      { inversion Hex as [Hg|s Hg]; simpl in Hg; subst.
        - apply existing_absent. simpl. rewrite get_assign_other by congruence. exact Hg.
        - apply existing_string. simpl. rewrite get_assign_other by congruence. exact Hg. }
      split; [exact Hc|]. intros k. rewrite Hget. cbn [get].
      destruct (string_eqb key k) eqn:Ek.
      * apply string_eqb_eq in Ek. subst k. rewrite Hrest.
        destruct (string_eqb key key_style) eqn:Ek'.
        -- apply string_eqb_eq in Ek'. congruence.
        -- unfold assign. destruct (string_eqb key key_proto); [reflexivity|].
           apply get_set_same.
      * apply string_eqb_neq in Ek.
        destruct (get k rest) as [v|].
        -- destruct (string_eqb k key_style); [reflexivity|].
           destruct (string_eqb k key_proto); [|reflexivity].
           apply get_assign_other. congruence.
        -- apply get_assign_other. congruence.
Qed.

Lemma get_style_applyClasses cls props :
  get key_style (applyClasses cls props) = get key_style props.
Proof.
  destruct cls; simpl; [reflexivity|]. apply get_set_other. discriminate.
Qed.

Lemma get_style_applyId i props :
  get key_style (applyId i props) = get key_style props.
Proof.
  destruct i as [[|c v]|]; simpl; try reflexivity. apply get_set_other. discriminate.
Qed.

Lemma get_className_applyId i props :
  get key_className (applyId i props) = get key_className props.
Proof.
  destruct i as [[|c v]|]; simpl; try reflexivity. apply get_set_other. discriminate.
Qed.

(** Every update of the loop state keeps a property, so does the loop. *)
Lemma forLoop_invariant (P : LoopState -> Prop) tokens :
  (forall c st, P st -> P (pushClass c st)) ->
  (forall i st, P st -> P (setId i st)) ->
  (forall k v st, P st -> P (setAttribute k v st)) ->
  (forall d st, P st -> P (pushDeclaration (finishDeclaration d) st)) ->
  forall fuel i st, P st -> P (forLoop tokens fuel i st).
Proof.
  intros Hc Hi Ha Hd. induction fuel as [|fuel IH]; intros i st Hst; simpl.
  - exact Hst.
  - destruct (nth_error tokens i) as [token|]; [|exact Hst].
    destruct (startsWith ch_dot token); [apply IH, Hc, Hst|].
    destruct (startsWith ch_hash token); [apply IH, Hi, Hst|].
    destruct (isAttributeToken token); [apply IH, Ha, Hst|].
    destruct (includes ch_colon token); [|apply IH, Hst].
    destruct (whileLoop tokens (length tokens) (S i) token) as [j d].
    apply IH, Hd, Hst.
Qed.

(** The parsed attributes are an object: one entry per key. *)
Lemma parseTokens_NoDup tokens : NoDup (keys (attributes (parseTokens tokens))).
Proof.
  unfold parseTokens, classifyFrom.
  assert (H : NoDup (keys (attributes (result
                (forLoop tokens (length tokens - 0) 0 initialState))))).
  { apply (forLoop_invariant (fun st => NoDup (keys (attributes (result st)))));
      simpl; auto.
    - intros k v st. apply NoDup_keys_assign.
    - constructor. }
  unfold addStyle. destruct (cssProperties _); simpl; [exact H|].
  now apply NoDup_keys_set.
Qed.

Lemma separator_cases existing :
  (existing = [] /\ separator existing = [])
  \/ (existing <> [] /\ endsWith ch_semicolon existing = true
      /\ separator existing = [ch_space])
  \/ (existing <> [] /\ endsWith ch_semicolon existing = false
      /\ separator existing = [ch_semicolon; ch_space]).
Proof.
  unfold separator. destruct existing as [|c s].
  - left. auto.
  - right. simpl isEmpty. cbn [negb andb].
    destruct (endsWith ch_semicolon (c :: s)); [left | right];
      repeat split; discriminate.
Qed.

(** The merge of a style entry, for any parsed attributes with one
    entry per key. *)
Lemma applyAttributes_style tag properties children attrs v existing :
  NoDup (keys (attributes attrs)) ->
  get key_style (attributes attrs) = Some v ->
  ExistingStyle properties existing ->
  exists props',
    applyAttributes (Element tag properties children) attrs
    = (Element tag (Some props') children, Normal)
    /\ get key_style props'
       = Some (PString (existing ++ separator existing ++ v)).
Proof.
  intros Hnd Hv Hex. unfold applyAttributes.
  set (props := applyId (id attrs)
                  (applyClasses (classes attrs) (propertiesOrEmpty properties))).
  assert (Hex' : ExistingStyle (Some props) existing).
  { assert (Hg : get key_style props = get key_style (propertiesOrEmpty properties)).
    { unfold props. now rewrite get_style_applyId, get_style_applyClasses. }
    inversion Hex as [H|s H]; subst.
    - apply existing_absent. simpl. congruence.
    - apply existing_string. simpl. congruence. }
  destruct (applyEntries_get (attributes attrs) props existing Hnd Hex') as [Hc Hget].
  destruct (applyEntries (attributes attrs) props) as [props' c]. simpl in *. subst c.
  exists props'. split; [reflexivity|].
  rewrite Hget, Hv. reflexivity.
Qed.

(** C3: when the parsed annotation has a style [v], the merge sets the
    style of the target to the existing style, a separator and [v]: no
    separator when the existing style is absent or empty, a space when
    it is not empty and ends with a semicolon, a semicolon and a space
    when it is not empty and does not end with a semicolon; the merge
    ends normally in each case, and an existing style is the start of
    the new one. *)
Theorem C3_style_merged_with_existing (tag : jsstring)
    (properties : option Properties) (children : list Node)
    (attributeString v : jsstring) :
  get key_style (attributes (parseAttributes attributeString)) = Some v ->
  let merged :=
    applyAttributes (Element tag properties children)
      (parseAttributes attributeString) in
  let before := get key_style (propertiesOrEmpty properties) in
  let after := get key_style (propertiesOf (fst merged)) in
  (before = None \/ before = Some (PString []) ->
   after = Some (PString v) /\ snd merged = Normal)
  /\ (forall existing,
        before = Some (PString existing) -> existing <> [] ->
        endsWith ch_semicolon existing = true ->
        after = Some (PString (existing ++ [ch_space] ++ v))
        /\ snd merged = Normal)
  /\ (forall existing,
        before = Some (PString existing) -> existing <> [] ->
        endsWith ch_semicolon existing = false ->
        after = Some (PString (existing ++ [ch_semicolon; ch_space] ++ v))
        /\ snd merged = Normal)
  /\ (forall existing,
        before = Some (PString existing) ->
        exists suffix, after = Some (PString (existing ++ suffix))).
Proof.
  intros Hv. cbv zeta.
  assert (Hmerge : forall existing,
            ExistingStyle properties existing ->
            get key_style
              (propertiesOf
                 (fst (applyAttributes (Element tag properties children)
                         (parseAttributes attributeString))))
            = Some (PString (existing ++ separator existing ++ v))
            /\ snd (applyAttributes (Element tag properties children)
                      (parseAttributes attributeString)) = Normal).
  { intros existing Hex.
    destruct (applyAttributes_style tag properties children
                (parseAttributes attributeString) v existing
                (parseTokens_NoDup _) Hv Hex) as (props' & Ha & Hs).
    rewrite Ha. simpl. auto. }
  split; [|split; [|split]].
  - intros [Hb|Hb].
    + apply (Hmerge [] (existing_absent properties Hb)).
    + apply (Hmerge [] (existing_string properties [] Hb)).
  - intros existing Hb Hne Hend.
    destruct (Hmerge existing (existing_string properties existing Hb)) as [Hs Hc].
    split; [|exact Hc]. rewrite Hs.
    destruct (separator_cases existing)
      as [[He Hsep] | [(He & Hend' & Hsep) | (He & Hend' & Hsep)]];
      try congruence.
  - intros existing Hb Hne Hend.
    destruct (Hmerge existing (existing_string properties existing Hb)) as [Hs Hc].
    split; [|exact Hc]. rewrite Hs.
    destruct (separator_cases existing)
      as [[He Hsep] | [(He & Hend' & Hsep) | (He & Hend' & Hsep)]];
      try congruence.
  - intros existing Hb.
    destruct (Hmerge existing (existing_string properties existing Hb)) as [Hs _].
    eauto.
Qed.

Lemma C3_style_merged_with_existing_witness :
  get key_style
    (propertiesOf
       (fst (applyAttributes (styled "p" "margin: 10px" [])
               (parseAttributes (str "color: red")))))
  = Some (PString (str "margin: 10px; color: red;")).
Proof.
  pose proof (C3_style_merged_with_existing (str "p")
                (Some [(key_style, PString (str "margin: 10px"))]) []
                (str "color: red") (str "color: red;") eq_refl)
    as (_ & _ & H & _).
  apply (H (str "margin: 10px") eq_refl); [discriminate | reflexivity].
Defined.

(** An attribute token of the key [__proto__] leaves no entry. *)
Example proto_token_is_dropped :
  parseAttributes (str "__proto__=x title=y")
  = {| classes := []; id := None; attributes := [(str "title", str "y")] |}.
Proof. reflexivity. Qed.

(** * Classes *)

Lemma string_eqb_sym a b : string_eqb a b = string_eqb b a.
Proof.
  destruct (string_eqb a b) eqn:E.
  - apply string_eqb_eq in E. subst. symmetry. apply string_eqb_refl.
  - apply string_eqb_neq in E. symmetry. apply string_eqb_neq. congruence.
Qed.

Lemma memberOf_In x l : memberOf x l = true <-> In x l.
Proof.
  unfold memberOf. rewrite existsb_exists. split.
  - intros (y & Hy & E). apply string_eqb_eq in E. now subst.
  - intros H. exists x. split; [exact H | apply string_eqb_refl].
Qed.

Lemma memberOf_app x l l' : memberOf x (l ++ l') = memberOf x l || memberOf x l'.
Proof. apply existsb_app. Qed.

Lemma filter_twice (A : Type) (f g : A -> bool) l :
  filter f (filter g l) = filter (fun x => g x && f x) l.
Proof.
  induction l as [|x l IH]; simpl; [reflexivity|].
  destruct (g x); simpl; [|exact IH]. destruct (f x); now rewrite IH.
Qed.

(** The Set built by successive insertion is the list without its
    repetitions. *)
Lemma setAdd_keepFirst seen l :
  setAdd seen l
  = seen ++ filter (fun y => negb (memberOf y seen)) (keepFirst l).
Proof.
  revert seen. induction l as [|x l IH]; intros seen; simpl.
  - now rewrite app_nil_r.
  - destruct (memberOf x seen) eqn:E; simpl.
    + rewrite IH. f_equal. rewrite filter_twice. apply filter_ext.
      intros y. destruct (string_eqb x y) eqn:Exy; simpl; [|reflexivity].
      apply string_eqb_eq in Exy. subst y. now rewrite E.
    + rewrite IH, <- app_assoc. simpl. do 2 f_equal.
      rewrite filter_twice. apply filter_ext.
      intros y. rewrite memberOf_app. simpl.
      rewrite orb_false_r, (string_eqb_sym y x), negb_orb. apply andb_comm.
Qed.

Lemma newSet_keepFirst l : newSet l = keepFirst l.
Proof.
  unfold newSet. rewrite setAdd_keepFirst. simpl.
  induction (keepFirst l) as [|x k IH]; simpl; [reflexivity|]. now rewrite IH.
Qed.

Lemma keepFirst_In x l : In x (keepFirst l) <-> In x l.
Proof.
  induction l as [|y l IH]; simpl; [tauto|].
  rewrite filter_In, IH, negb_true_iff, string_eqb_neq.
  destruct (list_eq_dec N.eq_dec y x); intuition congruence.
Qed.

Lemma keepFirst_NoDup l : NoDup (keepFirst l).
Proof.
  induction l as [|y l IH]; simpl; constructor.
  - rewrite filter_In, negb_true_iff, string_eqb_neq. intros [_ H]. congruence.
  - now apply NoDup_filter.
Qed.

(** C4, amended: when the parsed attributes have no entry of the key
    [className], the [className] of the target after the merge is, when
    classes were parsed, the existing classes (none when absent, the
    array as it is, a string split at each space character with the
    empty pieces dropped) followed by the parsed classes, without
    repetitions and each at the place of its first occurrence, joined by
    single spaces; when no class was parsed, it is what it was. *)
Theorem C4_classes_merged_amended (tag : jsstring)
    (properties : option Properties) (children : list Node)
    (attrs : ParsedAttributes) :
  get key_className (attributes attrs) = None ->
  let existing := get key_className (propertiesOrEmpty properties) in
  let existingList :=
    match existing with
    | None => []
    | Some (PArray items) => items
    | Some (PString s) => filter (fun p => negb (isEmpty p)) (split ch_space s)
    end in
  let merged := keepFirst (existingList ++ classes attrs) in
  let after :=
    propertiesOf (fst (applyAttributes (Element tag properties children) attrs)) in
  (classes attrs <> [] ->
   get key_className after = Some (PString (join [ch_space] merged)))
  /\ (classes attrs = [] -> get key_className after = existing)
  /\ NoDup merged
  /\ (forall c, In c merged <-> In c existingList \/ In c (classes attrs)).
Proof.
  intros Hk. cbv zeta.
  assert (Ha : get key_className
                 (propertiesOf
                    (fst (applyAttributes (Element tag properties children) attrs)))
               = get key_className
                   (applyClasses (classes attrs) (propertiesOrEmpty properties))).
  { unfold applyAttributes.
    pose proof (applyEntries_other (attributes attrs)
                  (applyId (id attrs)
                     (applyClasses (classes attrs) (propertiesOrEmpty properties)))
                  key_className) as Ho.
    destruct (applyEntries _ _) as [props' c]. simpl in *.
    rewrite Ho by (now apply get_None_keys).
    apply get_className_applyId. }
  rewrite Ha. split; [|split; [|split]].
  - intros Hne. destruct (classes attrs) as [|c cs]; [congruence|].
    unfold applyClasses. rewrite get_set_same, newSet_keepFirst.
    unfold existingClassArray.
    now destruct (get key_className (propertiesOrEmpty properties)) as [[s|a]|].
  - intros He. rewrite He. reflexivity.
  - apply keepFirst_NoDup.
  - intros c. now rewrite keepFirst_In, in_app_iff.
Qed.

Lemma C4_classes_merged_amended_witness :
  get key_className
    (propertiesOf
       (fst (applyAttributes
               (Element (str "div") (Some [(key_className, PString (str "existing"))]) [])
               (parseAttributes (str ".new .x .existing")))))
  = Some (PString (str "existing new x")).
Proof.
  apply (proj1 (C4_classes_merged_amended (str "div")
                  (Some [(key_className, PString (str "existing"))]) []
                  (parseAttributes (str ".new .x .existing")) eq_refl)).
  discriminate.
Defined.

(** C4 as stated fails: an existing class string is split at space
    characters only.  With a tab between [a] and [b] and the parsed
    class [a], the merge stores the existing string as one class and
    then [a]; split on white space, it would be [a b]. *)
Lemma C4_counterexample :
  let existing := str "a" ++ [ch_tab] ++ str "b" in
  let element := Element (str "div") (Some [(key_className, PString existing)]) [] in
  let attrs := parseAttributes (str ".a") in
  let after := propertiesOf (fst (applyAttributes element attrs)) in
  classes attrs = [str "a"]
  /\ get key_className after = Some (PString (existing ++ str " a"))
  /\ join [ch_space] (keepFirst (splitOnWhiteSpace existing ++ classes attrs))
     = str "a b"
  /\ get key_className after
     <> Some (PString (join [ch_space]
                         (keepFirst (splitOnWhiteSpace existing ++ classes attrs)))).
Proof. repeat split; discriminate. Qed.

(** An attribute token of the key [className] is written after the
    classes and replaces them. *)
Example className_token_replaces_classes :
  fst (applyAttributes (el "div" []) (parseAttributes (str ".a className=b")))
  = Element (str "div") (Some [(key_className, PString (str "b"))]) [].
Proof. reflexivity. Qed.

(** * The shape of the style *)

Lemma endsWith_app c (a b : jsstring) :
  b <> [] -> endsWith c (a ++ b) = endsWith c b.
Proof.
  intros Hb. unfold endsWith. rewrite rev_app_distr.
  destruct (rev b) as [|x r] eqn:E; [|reflexivity].
  apply (f_equal (@rev char)) in E. rewrite rev_involutive in E. contradiction.
Qed.

Lemma endsWith_nonempty c (s : jsstring) : endsWith c s = true -> s <> [].
Proof. intros H ->. discriminate. Qed.

Lemma noLeadingSpace_app (a b : jsstring) :
  a <> [] -> noLeadingSpace a -> noLeadingSpace (a ++ b).
Proof.
  intros Ha Hl c s' H. destruct a as [|x a]; [contradiction|].
  injection H as -> _. now apply (Hl c a).
Qed.

Lemma noTrailingSpace_app (a b : jsstring) :
  b <> [] -> noTrailingSpace b -> noTrailingSpace (a ++ b).
Proof.
  intros Hb Ht c s' H.
  destruct (exists_last Hb) as (b' & x & ->).
  rewrite app_assoc in H. apply app_inj_tail in H as [_ ->].
  now apply (Ht c b').
Qed.

Lemma Declaration_nonempty d : Declaration d -> d <> [].
Proof. intros [H _]. now apply endsWith_nonempty in H. Qed.

(** What the loop pushes is a declaration. *)
Lemma finishDeclaration_Declaration d : Declaration (finishDeclaration d).
Proof.
  unfold finishDeclaration.
  destruct (endsWith ch_semicolon (trim d)) eqn:E.
  - split; [exact E|]. split; [apply trim_noLeadingSpace | apply trim_noTrailingSpace].
  - split; [|split].
    + now rewrite endsWith_app by discriminate.
    + destruct (trim d) as [|x t] eqn:Et.
      * intros c s' [= <- _]. reflexivity.
      * apply noLeadingSpace_app; [discriminate|].
        rewrite <- Et. apply trim_noLeadingSpace.
    + apply noTrailingSpace_app; [discriminate|].
      intros c s' H. destruct s' as [|y s']; [|destruct s'; discriminate].
      injection H as <-. reflexivity.
Qed.

Lemma join_cons sep (p q : jsstring) (ps : list jsstring) :
  join sep (p :: q :: ps) = p ++ sep ++ join sep (q :: ps).
Proof. reflexivity. Qed.


Lemma join_nonempty sep (d : jsstring) (ds : list jsstring) :
  d <> [] -> join sep (d :: ds) <> [].
Proof.
  intros Hd. destruct ds as [|q qs]; [exact Hd|].
  rewrite join_cons. destruct d; [contradiction | discriminate].
Qed.

(** Declarations joined by spaces: the value ends with a semicolon and
    has no white space at either end. *)
Lemma join_declarations (d : jsstring) (ds : list jsstring) :
  Forall Declaration (d :: ds) ->
  endsWith ch_semicolon (join [ch_space] (d :: ds)) = true
  /\ noLeadingSpace (join [ch_space] (d :: ds))
  /\ noTrailingSpace (join [ch_space] (d :: ds)).
Proof.
  revert d. induction ds as [|q qs IH]; intros d Hall.
  - inversion Hall as [|? ? Hd _]; subst. exact Hd.
  - inversion Hall as [|? ? Hd Hrest]; subst.
    destruct (IH q Hrest) as (He & Hl & Ht).
    assert (Hq : join [ch_space] (q :: qs) <> []).
    { apply join_nonempty. inversion Hrest; subst. now apply Declaration_nonempty. }
    rewrite join_cons. split; [|split].
    + rewrite endsWith_app.
      * now rewrite endsWith_app.
      * discriminate.
    + apply noLeadingSpace_app; [now apply Declaration_nonempty | apply Hd].
    + rewrite app_assoc. now apply noTrailingSpace_app.
Qed.




(** The declarations of the loop state are declarations. *)
Lemma classifyFrom_declarations tokens i st :
  Forall Declaration (cssProperties st) ->
  Forall Declaration (cssProperties (classifyFrom tokens i st)).
Proof.
  unfold classifyFrom.
  apply (forLoop_invariant (fun st => Forall Declaration (cssProperties st)));
    simpl; auto.
  intros d st' H. apply Forall_app. split; [exact H|].
  constructor; [apply finishDeclaration_Declaration | constructor].
Qed.

(** With at least one declaration the parsed style is the declarations
    joined by spaces. *)
Lemma parseTokens_style tokens :
  cssProperties (classifyFrom tokens 0 initialState) <> [] ->
  exists v,
    get key_style (attributes (parseTokens tokens)) = Some v
    /\ v <> []
    /\ v = join [ch_space] (cssProperties (classifyFrom tokens 0 initialState))
    /\ StyleShape v.
Proof.
  intros Hne. unfold parseTokens, addStyle.
  pose proof (classifyFrom_declarations tokens 0 initialState (Forall_nil _)) as Hall.
  destruct (cssProperties (classifyFrom tokens 0 initialState)) as [|d ds] eqn:Ec;
    [contradiction|].
  destruct (join_declarations d ds Hall) as (He & Hl & Ht).
  exists (join [ch_space] (d :: ds)). cbn [attributes].
  rewrite (trim_fixed _ Hl Ht). split; [apply get_set_same|].
  split; [now apply endsWith_nonempty in He|]. split; [reflexivity|].
  exists (d :: ds). auto.
Qed.





Example styledParagraph_visit :
  onVisit 0 styledParagraph
  = (styled "p" "margin: 10px; color: red; font-size: 14px;" [txt "Text content"],
     Normal).
Proof. reflexivity. Qed.


(** An existing style that starts with white space stays the start of
    the merged style. *)
Example existing_style_with_leading_space :
  onVisit 0 (styled "p" " margin: 0" [txt "{color: red}Hello"])
  = (styled "p" " margin: 0; color: red;" [txt "Hello"], Normal)
  /\ ~ StyleShape (str " margin: 0; color: red;").
Proof.
  split; [reflexivity|].
  intros (ds & Hall & Hj). destruct ds as [|d ds]; [discriminate|].
  destruct (join_declarations d ds Hall) as (_ & Hl & _).
  rewrite <- Hj in Hl. specialize (Hl _ _ eq_refl). discriminate.
Qed.

(** An array under [style] makes the merge throw. *)
Example array_style_throws :
  snd (applyAttributes
         (Element (str "p") (Some [(key_style, PArray [str "a"])]) [])
         (parseAttributes (str "color: red")))
  = TypeError.
Proof. reflexivity. Qed.

(** * The traversal *)

Example rehypeStyling_two_annotations :
  rehypeStyling (Root [twoAnnotations])
  = (Root [ el "div"
              [ styled "em" "font-style: italic; color: blue;" [txt "Italic text"];
                txt "and";
                styled "strong" "font-weight: bold; color: green;" [txt "bold text"];
                txt "together" ] ], Normal).
Proof. vm_compute. reflexivity. Qed.

Example rehypeStyling_nested :
  rehypeStyling
    (Root [ el "article"
              [ el "h1" [txt "{color: navy; text-decoration: underline;}Main Title"];
                el "p" [txt "{background: lightgray; padding: 8px;}Important paragraph"] ] ])
  = (Root [ el "article"
              [ styled "h1" "color: navy; text-decoration: underline;" [txt "Main Title"];
                styled "p" "background: lightgray; padding: 8px;" [txt "Important paragraph"] ] ],
     Normal).
Proof. reflexivity. Qed.

Example rehypeStyling_mixed :
  rehypeStyling
    (Root [ el "article"
              [ txt "{.card .featured #main-article color: blue; padding: 20px; data-category='tech'}Complex styled content" ] ])
  = (Root [ Element (str "article")
              (Some [ (key_className, PString (str "card featured"));
                      (key_id, PString (str "main-article"));
                      (str "data-category", PString (str "tech"));
                      (key_style, PString (str "color: blue; padding: 20px;")) ])
              [txt "Complex styled content"] ], Normal).
Proof. reflexivity. Qed.

Lemma weight_withoutProperties n : weight (withoutProperties n) = weight n.
Proof. now destruct n. Qed.

Lemma childWeights_withoutProperties cs cs' :
  map withoutProperties cs = map withoutProperties cs' ->
  childWeights cs = childWeights cs'.
Proof.
  revert cs'. induction cs as [|c cs IH]; intros [|c' cs']; simpl; try discriminate.
  - reflexivity.
  - intros [= Hc Hcs]. unfold childWeights in *. simpl.
    rewrite (IH cs' Hcs).
    now rewrite <- (weight_withoutProperties c), Hc, weight_withoutProperties.
Qed.

Lemma childWeights_skipn_S k cs :
  childWeights (skipn (S k) cs) <= childWeights (skipn k cs).
Proof.
  revert k. induction cs as [|c cs IH]; intros k.
  - now rewrite !skipn_nil.
  - destruct k as [|k]; [|apply (IH k)].
    unfold childWeights. simpl. lia.
Qed.

Lemma skipn_S_removeAt k cs : skipn (S k) (removeAt k cs) = skipn (S (S k)) cs.
Proof.
  revert k. induction cs as [|c cs IH]; intros [|k]; try reflexivity.
  change (skipn (S (S k)) (removeAt (S k) (c :: cs))) with (skipn (S k) (removeAt k cs)).
  now rewrite IH.
Qed.

Lemma skipn_S_replaceAt k x cs : skipn (S k) (replaceAt k x cs) = skipn (S k) cs.
Proof.
  revert k. induction cs as [|c cs IH]; intros [|k]; try reflexivity.
  change (skipn (S (S k)) (replaceAt (S k) x (c :: cs)))
    with (skipn (S k) (replaceAt k x cs)).
  now rewrite IH.
Qed.

(** A visit leaves no more to walk after the visited position. *)
Lemma onVisit_walkBound (node : Node) offset value :
  nth_error (childrenOf node) offset = Some (Text value) ->
  walkBound (fst (onVisit offset node)) (S offset) <= walkBound node (S offset).
Proof.
  intros Hn. unfold walkBound. apply le_n_S.
  destruct (attributeRegex value) as [[captured replaced]|] eqn:Hm.
  - pose proof (onVisit_children _ _ _ _ _ Hn Hm) as Hc.
    apply (f_equal (skipn (S offset))) in Hc. rewrite !skipn_map in Hc.
    rewrite (childWeights_withoutProperties _ _ Hc).
    unfold prunedChildren. destruct (isEmpty (trim replaced)).
    + rewrite skipn_S_removeAt. apply childWeights_skipn_S.
    + now rewrite skipn_S_replaceAt.
  - now rewrite (onVisit_no_match _ _ _ Hn Hm).
Qed.

Lemma nth_error_skipn_head' (A : Type) (l : list A) k x :
  nth_error l k = Some x -> skipn k l = x :: skipn (S k) l.
Proof.
  revert k. induction l as [|y l IH]; intros [|k]; simpl; try discriminate.
  - now intros [= ->].
  - apply IH.
Qed.

Lemma walkBound_child (node : Node) offset child :
  nth_error (childrenOf node) offset = Some child ->
  walkBound node offset = S (S (weight child)) + childWeights (skipn (S offset) (childrenOf node)).
Proof.
  intros Hn. unfold walkBound. rewrite (nth_error_skipn_head' _ _ _ _ Hn).
  unfold childWeights. simpl. lia.
Qed.

Lemma walkBound_own (child : Node) : walkBound child 0 <= weight child.
Proof. destruct child; unfold walkBound, childWeights; simpl; lia. Qed.

Lemma walkBound_replaced (node : Node) offset child child' :
  nth_error (childrenOf node) offset = Some child ->
  walkBound (setChildren node (replaceAt offset child' (childrenOf node))) (S offset)
  = walkBound node (S offset).
Proof.
  intros Hn. unfold walkBound.
  rewrite childrenOf_setChildren by (eapply nth_error_hasChildren; eauto).
  now rewrite skipn_S_replaceAt.
Qed.

Lemma visitChildren_S fuel node offset :
  visitChildren (S fuel) node offset
  = match nth_error (childrenOf node) offset with
    | None => (node, Normal)
    | Some (Text _) =>
        match onVisit offset node with
        | (node', Normal) => visitChildren fuel node' (S offset)
        | (node', TypeError) => (node', TypeError)
        end
    | Some child =>
        match visitChildren fuel child 0 with
        | (child', Normal) =>
            visitChildren fuel
              (setChildren node (replaceAt offset child' (childrenOf node)))
              (S offset)
        | (child', TypeError) =>
            (setChildren node (replaceAt offset child' (childrenOf node)),
             TypeError)
        end
    end.
Proof. reflexivity. Qed.

(** The walk ends: with fuel up to the bound, more fuel changes nothing. *)
Lemma visitChildren_fuel fuel fuel' (node : Node) offset :
  walkBound node offset <= fuel -> walkBound node offset <= fuel' ->
  visitChildren fuel node offset = visitChildren fuel' node offset.
Proof.
  revert fuel' node offset.
  induction fuel as [|fuel IH]; intros fuel' node offset Hf Hf'.
  - unfold walkBound in Hf. lia.
  - destruct fuel' as [|fuel']; [unfold walkBound in Hf'; lia|].
    rewrite !visitChildren_S.
    destruct (nth_error (childrenOf node) offset) as [child|] eqn:Hn; [|reflexivity].
    rewrite (walkBound_child _ _ _ Hn) in Hf, Hf'.
    assert (Hrest : walkBound node (S offset)
                    = S (childWeights (skipn (S offset) (childrenOf node))))
      by reflexivity.
    assert (Hother :
      match visitChildren fuel child 0 with
      | (child', Normal) =>
          visitChildren fuel
            (setChildren node (replaceAt offset child' (childrenOf node))) (S offset)
      | (child', TypeError) =>
          (setChildren node (replaceAt offset child' (childrenOf node)), TypeError)
      end
      = match visitChildren fuel' child 0 with
        | (child', Normal) =>
            visitChildren fuel'
              (setChildren node (replaceAt offset child' (childrenOf node))) (S offset)
        | (child', TypeError) =>
            (setChildren node (replaceAt offset child' (childrenOf node)), TypeError)
        end).
    { pose proof (walkBound_own child) as Hw.
      rewrite (IH fuel' child 0) by lia.
      destruct (visitChildren fuel' child 0) as [child' [|]]; [|reflexivity].
      apply IH; rewrite (walkBound_replaced _ _ _ child' Hn); lia. }
    destruct child as [cs|tag props cs|value|value]; try exact Hother.
    pose proof (onVisit_walkBound _ _ _ Hn) as Hv.
    destruct (onVisit offset node) as [node' [|]]; [|reflexivity].
    simpl in Hv. apply IH; lia.
Qed.

(** The transformer returns, and more fuel than the weight of the tree
    gives the same result. *)
Lemma rehypeStyling_fuel (tree : Node) fuel :
  weight tree <= fuel -> visitChildren fuel tree 0 = rehypeStyling tree.
Proof.
  intros Hf. pose proof (walkBound_own tree) as Hw.
  unfold rehypeStyling. apply visitChildren_fuel; lia.
Qed.

Lemma setChildren_childrenOf (n : Node) : setChildren n (childrenOf n) = n.
Proof. now destruct n. Qed.

Lemma annotationFree_child (node : Node) offset child :
  annotationFree node = true ->
  nth_error (childrenOf node) offset = Some child ->
  annotationFree child = true.
Proof.
  intros Ha Hn. apply nth_error_In in Hn.
  destruct node as [cs|tag props cs|v|v]; simpl in *; try contradiction;
    rewrite forallb_forall in Ha; now apply Ha.
Qed.

Lemma visitChildren_annotationFree fuel (node : Node) offset :
  annotationFree node = true -> visitChildren fuel node offset = (node, Normal).
Proof.
  revert node offset. induction fuel as [|fuel IH]; intros node offset Ha.
  - reflexivity.
  - rewrite visitChildren_S.
    destruct (nth_error (childrenOf node) offset) as [child|] eqn:Hn; [|reflexivity].
    pose proof (annotationFree_child _ _ _ Ha Hn) as Hc.
    assert (Hother :
      match visitChildren fuel child 0 with
      | (child', Normal) =>
          visitChildren fuel
            (setChildren node (replaceAt offset child' (childrenOf node))) (S offset)
      | (child', TypeError) =>
          (setChildren node (replaceAt offset child' (childrenOf node)), TypeError)
      end = (node, Normal)).
    { rewrite (IH child 0 Hc), (replaceAt_same _ _ _ Hn), setChildren_childrenOf.
      now apply IH. }
    destruct child as [cs|tag props cs|value|value]; try exact Hother.
    simpl in Hc. destruct (attributeRegex value) eqn:Hm; [discriminate|].
    rewrite (onVisit_no_match _ _ _ Hn Hm). now apply IH.
Qed.

(** On a tree without annotation the transformer is the identity. *)
Lemma rehypeStyling_annotationFree (tree : Node) :
  annotationFree tree = true -> rehypeStyling tree = (tree, Normal).
Proof. apply visitChildren_annotationFree. Qed.

(** * Whole annotations *)

(** Induction along the run of the loop: a property of the cursor, the
    state at the cursor and the final state holds when it holds at the
    end of the tokens and is carried back over each kind of step. *)
Lemma classifyFrom_run (tokens : list jsstring)
    (Q : nat -> LoopState -> LoopState -> Prop) :
  (forall i st, nth_error tokens i = None -> Q i st st) ->
  (forall i st token final,
      nth_error tokens i = Some token ->
      startsWith ch_dot token = true ->
      Q (S i) (pushClass (slice1 token) st) final -> Q i st final) ->
  (forall i st token final,
      nth_error tokens i = Some token ->
      startsWith ch_dot token = false -> startsWith ch_hash token = true ->
      Q (S i) (setId (slice1 token) st) final -> Q i st final) ->
  (forall i st token final,
      nth_error tokens i = Some token ->
      startsWith ch_dot token = false -> startsWith ch_hash token = false ->
      isAttributeToken token = true ->
      Q (S i) (setAttribute (attributeKey token) (attributeValue token) st) final ->
      Q i st final) ->
  (forall i st token final,
      nth_error tokens i = Some token ->
      startsWith ch_dot token = false -> startsWith ch_hash token = false ->
      isAttributeToken token = false -> includes ch_colon token = true ->
      Q (S i + length (absorbedTokens (skipn (S i) tokens)))
        (pushDeclaration
           (finishDeclaration
              (join [ch_space] (token :: absorbedTokens (skipn (S i) tokens)))) st)
        final ->
      Q i st final) ->
  (forall i st token final,
      nth_error tokens i = Some token ->
      startsWith ch_dot token = false -> startsWith ch_hash token = false ->
      isAttributeToken token = false -> includes ch_colon token = false ->
      Q (S i) st final -> Q i st final) ->
  forall i st, Q i st (classifyFrom tokens i st).
Proof.
  intros Hend Hclass Hid Hattr Hdecl Hskip i.
  remember (length tokens - i) as n eqn:En.
  revert i En. induction n as [n IH] using lt_wf_ind. intros i En st.
  destruct (nth_error tokens i) as [token|] eqn:Hn.
  - assert (Hl : i < length tokens) by (apply nth_error_Some; congruence).
    rewrite (classifyFrom_step _ _ _ _ Hn).
    destruct (startsWith ch_dot token) eqn:Ed.
    { apply (Hclass i st token _ Hn Ed). apply (IH (length tokens - S i)); lia. }
    destruct (startsWith ch_hash token) eqn:Eh.
    { apply (Hid i st token _ Hn Ed Eh). apply (IH (length tokens - S i)); lia. }
    destruct (isAttributeToken token) eqn:Ea.
    { apply (Hattr i st token _ Hn Ed Eh Ea). apply (IH (length tokens - S i)); lia. }
    destruct (includes ch_colon token) eqn:Ec.
    { cbv zeta. apply (Hdecl i st token _ Hn Ed Eh Ea Ec).
      apply (IH (length tokens
                 - (S i + length (absorbedTokens (skipn (S i) tokens))))); lia. }
    apply (Hskip i st token _ Hn Ed Eh Ea Ec). apply (IH (length tokens - S i)); lia.
  - rewrite (classifyFrom_end _ _ _ Hn). now apply Hend.
Qed.

Lemma skipn_None (tokens : list jsstring) i :
  nth_error tokens i = None -> skipn i tokens = [].
Proof. intros H. apply skipn_all2. now apply nth_error_None. Qed.

Lemma skipn_absorbed (tokens : list jsstring) i :
  skipn (S i) tokens
  = absorbedTokens (skipn (S i) tokens)
    ++ skipn (S i + length (absorbedTokens (skipn (S i) tokens))) tokens.
Proof.
  replace (skipn (S i + length (absorbedTokens (skipn (S i) tokens))) tokens)
    with (skipn (length (absorbedTokens (skipn (S i) tokens))) (skipn (S i) tokens))
    by (rewrite skipn_skipn; f_equal; lia).
  apply absorbedTokens_prefix.
Qed.

(** No absorbed token satisfies a test that an absorbable token fails. *)
Lemma filter_absorbed (p : jsstring -> bool) following :
  (forall t, absorbable t = true -> p t = false) ->
  filter p (absorbedTokens following) = [].
Proof.
  intros Hp. pose proof (absorbedTokens_all following) as Hall.
  induction Hall as [|t ts Ht _ IH]; simpl; [reflexivity|]. now rewrite (Hp t Ht).
Qed.

Lemma lastWhere_app p l l' :
  lastWhere p (l ++ l')
  = match lastWhere p l' with
    | Some y => Some y
    | None => lastWhere p l
    end.
Proof.
  induction l as [|x l IH]; simpl.
  - now destruct (lastWhere p l').
  - rewrite IH. destruct (lastWhere p l'); [reflexivity|].
    reflexivity.
Qed.

Lemma lastWhere_none p l :
  (forall t, In t l -> p t = false) -> lastWhere p l = None.
Proof.
  induction l as [|x l IH]; simpl; intros H; [reflexivity|].
  rewrite IH by auto. now rewrite (H x (or_introl eq_refl)).
Qed.

Lemma lastWhere_absorbed (p : jsstring -> bool) following :
  (forall t, absorbable t = true -> p t = false) ->
  lastWhere p (absorbedTokens following) = None.
Proof.
  intros Hp. apply lastWhere_none. intros t Ht.
  apply Hp. pose proof (absorbedTokens_all following) as Hall.
  rewrite Forall_forall in Hall. now apply Hall.
Qed.

Lemma absorbable_not_dot t : absorbable t = true -> startsWith ch_dot t = false.
Proof.
  unfold absorbable. destruct (startsWith ch_dot t); [discriminate | reflexivity].
Qed.

Lemma absorbable_not_hash t : absorbable t = true -> startsWith ch_hash t = false.
Proof.
  unfold absorbable. destruct (startsWith ch_dot t), (startsWith ch_hash t);
    try discriminate; reflexivity.
Qed.

Lemma absorbable_no_colon t : absorbable t = true -> includes ch_colon t = false.
Proof.
  unfold absorbable. destruct (includes ch_colon t); [|reflexivity].
  rewrite andb_false_r. discriminate.
Qed.

Lemma absorbable_not_attribute t : absorbable t = true -> isAttributeToken t = false.
Proof.
  unfold absorbable, isAttributeToken.
  destruct (startsWith ch_dot t), (startsWith ch_hash t),
    (includes ch_equals t), (includes ch_colon t); try discriminate; reflexivity.
Qed.

(** X1: the classes of a parsed annotation are the tokens that start
    with a dot, in their order, each without its dot; no such token is
    lost to a declaration before it. *)
Theorem X1_classes_are_the_dot_tokens (tokens : list jsstring) :
  classes (parseTokens tokens)
  = map slice1 (filter (startsWith ch_dot) tokens).
Proof.
  assert (H : forall i st,
             classes (result (classifyFrom tokens i st))
             = classes (result st)
               ++ map slice1 (filter (startsWith ch_dot) (skipn i tokens))).
  { apply (classifyFrom_run tokens
             (fun i st final =>
                classes (result final)
                = classes (result st)
                  ++ map slice1 (filter (startsWith ch_dot) (skipn i tokens)))).
    - intros i st Hn. rewrite (skipn_None _ _ Hn). simpl. now rewrite app_nil_r.
    - intros i st token final Hn Hd IH.
      rewrite IH, (nth_error_skipn_head' _ _ _ _ Hn). simpl. rewrite Hd. simpl.
      now rewrite <- app_assoc.
    - intros i st token final Hn Hd Hh IH.
      rewrite IH, (nth_error_skipn_head' _ _ _ _ Hn). simpl. now rewrite Hd.
    - intros i st token final Hn Hd Hh Ha IH.
      rewrite IH, (nth_error_skipn_head' _ _ _ _ Hn). simpl. now rewrite Hd.
    - intros i st token final Hn Hd Hh Ha Hc IH.
      pose proof (skipn_absorbed tokens i) as Hsk.
      set (A := absorbedTokens (skipn (S i) tokens)) in *.
      rewrite IH, (nth_error_skipn_head' _ _ _ _ Hn).
      cbn [filter classes result pushDeclaration]. rewrite Hd.
      rewrite Hsk, filter_app. unfold A.
      now rewrite (filter_absorbed _ _ absorbable_not_dot).
    - intros i st token final Hn Hd Hh Ha Hc IH.
      rewrite IH, (nth_error_skipn_head' _ _ _ _ Hn). simpl. now rewrite Hd. }
  unfold parseTokens, addStyle.
  specialize (H 0 initialState). simpl in H.
  destruct (cssProperties (classifyFrom tokens 0 initialState)); exact H.
Qed.

Lemma isIdToken_eq t :
  isIdToken t = negb (startsWith ch_dot t) && startsWith ch_hash t.
Proof. reflexivity. Qed.

Lemma storesKey_eq key t :
  storesKey key t
  = negb (startsWith ch_dot t) && negb (startsWith ch_hash t)
    && isAttributeToken t && string_eqb (attributeKey t) key.
Proof. reflexivity. Qed.

Lemma opensDeclaration_eq t :
  opensDeclaration t
  = negb (startsWith ch_dot t) && negb (startsWith ch_hash t)
    && includes ch_colon t.
Proof. reflexivity. Qed.

Lemma lastWhere_cons p x l :
  lastWhere p (x :: l)
  = match lastWhere p l with
    | Some y => Some y
    | None => if p x then Some x else None
    end.
Proof. reflexivity. Qed.

(** X2: the id of a parsed annotation is the last token that starts
    with a hash, without its hash; there is none when no token starts
    with a hash. *)
Theorem X2_id_is_the_last_hash_token (tokens : list jsstring) :
  id (parseTokens tokens)
  = match lastWhere isIdToken tokens with
    | Some token => Some (slice1 token)
    | None => None
    end.
Proof.
  assert (H : forall i st,
             id (result (classifyFrom tokens i st))
             = match lastWhere isIdToken (skipn i tokens) with
               | Some token => Some (slice1 token)
               | None => id (result st)
               end).
  { apply (classifyFrom_run tokens
             (fun i st final =>
                id (result final)
                = match lastWhere isIdToken (skipn i tokens) with
                  | Some token => Some (slice1 token)
                  | None => id (result st)
                  end)).
    - intros i st Hn. now rewrite (skipn_None _ _ Hn).
    - intros i st token final Hn Hd IH.
      rewrite IH, (nth_error_skipn_head' _ _ _ _ Hn), lastWhere_cons.
      rewrite (isIdToken_eq token). rewrite Hd.
      now destruct (lastWhere isIdToken (skipn (S i) tokens)).
    - intros i st token final Hn Hd Hh IH.
      rewrite IH, (nth_error_skipn_head' _ _ _ _ Hn), lastWhere_cons.
      rewrite (isIdToken_eq token). rewrite Hd, Hh.
      now destruct (lastWhere isIdToken (skipn (S i) tokens)).
    - intros i st token final Hn Hd Hh Ha IH.
      rewrite IH, (nth_error_skipn_head' _ _ _ _ Hn), lastWhere_cons.
      rewrite (isIdToken_eq token). rewrite Hd, Hh.
      now destruct (lastWhere isIdToken (skipn (S i) tokens)).
    - intros i st token final Hn Hd Hh Ha Hc IH.
      pose proof (skipn_absorbed tokens i) as Hsk.
      set (A := absorbedTokens (skipn (S i) tokens)) in *.
      rewrite IH, (nth_error_skipn_head' _ _ _ _ Hn), lastWhere_cons.
      rewrite Hsk, lastWhere_app. unfold A.
      rewrite lastWhere_absorbed.
      + rewrite (isIdToken_eq token). rewrite Hd, Hh.
        now destruct (lastWhere isIdToken _).
      + intros t Ht. unfold isIdToken.
        now rewrite (absorbable_not_hash _ Ht), andb_false_r.
    - intros i st token final Hn Hd Hh Ha Hc IH.
      rewrite IH, (nth_error_skipn_head' _ _ _ _ Hn), lastWhere_cons.
      rewrite (isIdToken_eq token). rewrite Hd, Hh.
      now destruct (lastWhere isIdToken (skipn (S i) tokens)). }
  unfold parseTokens, addStyle.
  specialize (H 0 initialState). simpl in H.
  destruct (cssProperties (classifyFrom tokens 0 initialState)); exact H.
Qed.

(** The attribute stored under a key is the one of the last token that
    stores that key. *)
Lemma classifyFrom_attribute (tokens : list jsstring) (key : jsstring) :
  key <> key_proto ->
  forall i st,
    get key (attributes (result (classifyFrom tokens i st)))
    = match lastWhere (storesKey key) (skipn i tokens) with
      | Some token => Some (attributeValue token)
      | None => get key (attributes (result st))
      end.
Proof.
  intros Hp.
  apply (classifyFrom_run tokens
           (fun i st final =>
              get key (attributes (result final))
              = match lastWhere (storesKey key) (skipn i tokens) with
                | Some token => Some (attributeValue token)
                | None => get key (attributes (result st))
                end)).
  - intros i st Hn. now rewrite (skipn_None _ _ Hn).
  - intros i st token final Hn Hd IH.
    rewrite IH, (nth_error_skipn_head' _ _ _ _ Hn), lastWhere_cons.
    rewrite (storesKey_eq key token). rewrite Hd.
    now destruct (lastWhere (storesKey key) (skipn (S i) tokens)).
  - intros i st token final Hn Hd Hh IH.
    rewrite IH, (nth_error_skipn_head' _ _ _ _ Hn), lastWhere_cons.
    rewrite (storesKey_eq key token). rewrite Hd, Hh.
    now destruct (lastWhere (storesKey key) (skipn (S i) tokens)).
  - intros i st token final Hn Hd Hh Ha IH.
    rewrite IH, (nth_error_skipn_head' _ _ _ _ Hn), lastWhere_cons.
    rewrite (storesKey_eq key token). rewrite Hd, Hh, Ha. cbn [negb andb].
    destruct (lastWhere (storesKey key) (skipn (S i) tokens)); [reflexivity|].
    cbn [attributes result setAttribute].
    destruct (string_eqb (attributeKey token) key) eqn:Ek.
    + apply string_eqb_eq in Ek. rewrite Ek. now apply get_assign_same.
    + apply string_eqb_neq in Ek. apply get_assign_other. congruence.
  - intros i st token final Hn Hd Hh Ha Hc IH.
    pose proof (skipn_absorbed tokens i) as Hsk.
    set (A := absorbedTokens (skipn (S i) tokens)) in *.
    rewrite IH, (nth_error_skipn_head' _ _ _ _ Hn), lastWhere_cons.
    rewrite Hsk, lastWhere_app. unfold A.
    rewrite lastWhere_absorbed.
    + rewrite (storesKey_eq key token). rewrite Hd, Hh, Ha.
      now destruct (lastWhere (storesKey key) _).
    + intros t Ht. unfold storesKey.
      rewrite (absorbable_not_attribute _ Ht). now rewrite andb_false_r.
  - intros i st token final Hn Hd Hh Ha Hc IH.
    rewrite IH, (nth_error_skipn_head' _ _ _ _ Hn), lastWhere_cons.
    rewrite (storesKey_eq key token). rewrite Hd, Hh, Ha.
    now destruct (lastWhere (storesKey key) (skipn (S i) tokens)).
Qed.

(** X3: for a key other than [style] and [__proto__], the parsed
    annotation holds the value of the last attribute token of that key,
    and no entry when no token stores the key. *)
Theorem X3_last_attribute_token_wins (tokens : list jsstring) (key : jsstring) :
  key <> key_proto ->
  key <> key_style ->
  get key (attributes (parseTokens tokens))
  = match lastWhere (storesKey key) tokens with
    | Some token => Some (attributeValue token)
    | None => None
    end.
Proof.
  intros Hp Hs.
  pose proof (classifyFrom_attribute tokens key Hp 0 initialState) as H.
  simpl in H. unfold parseTokens, addStyle.
  destruct (cssProperties (classifyFrom tokens 0 initialState)); [exact H|].
  cbn [attributes]. rewrite get_set_other by exact Hs. exact H.
Qed.

Lemma X3_last_attribute_token_wins_witness :
  get (str "title")
    (attributes (parseTokens [str "title=a"; str "color:"; str "red"; str "title='b'"]))
  = Some (str "b").
Proof.
  apply (X3_last_attribute_token_wins
           [str "title=a"; str "color:"; str "red"; str "title='b'"] (str "title")).
  - discriminate.
  - discriminate.
Defined.

(** Each token that opens a declaration gives one declaration. *)
Lemma classifyFrom_declaration_count (tokens : list jsstring) :
  forall i st,
    length (cssProperties (classifyFrom tokens i st))
    = length (cssProperties st)
      + length (filter opensDeclaration (skipn i tokens)).
Proof.
  apply (classifyFrom_run tokens
           (fun i st final =>
              length (cssProperties final)
              = length (cssProperties st)
                + length (filter opensDeclaration (skipn i tokens)))).
  - intros i st Hn. rewrite (skipn_None _ _ Hn). simpl. lia.
  - intros i st token final Hn Hd IH.
    rewrite IH, (nth_error_skipn_head' _ _ _ _ Hn). cbn [filter].
    rewrite (opensDeclaration_eq token). rewrite Hd. reflexivity.
  - intros i st token final Hn Hd Hh IH.
    rewrite IH, (nth_error_skipn_head' _ _ _ _ Hn). cbn [filter].
    rewrite (opensDeclaration_eq token). rewrite Hd, Hh. reflexivity.
  - intros i st token final Hn Hd Hh Ha IH.
    rewrite IH, (nth_error_skipn_head' _ _ _ _ Hn). cbn [filter].
    rewrite (opensDeclaration_eq token). rewrite Hd, Hh.
    unfold isAttributeToken in Ha. apply andb_true_iff in Ha as [_ Ha].
    apply negb_true_iff in Ha. rewrite Ha. reflexivity.
  - intros i st token final Hn Hd Hh Ha Hc IH.
    pose proof (skipn_absorbed tokens i) as Hsk.
    set (A := absorbedTokens (skipn (S i) tokens)) in *.
    rewrite IH, (nth_error_skipn_head' _ _ _ _ Hn). cbn [filter].
    rewrite (opensDeclaration_eq token). rewrite Hd, Hh, Hc. cbn [negb andb length].
    rewrite Hsk, filter_app. unfold A.
    rewrite filter_absorbed.
    + cbn [cssProperties pushDeclaration]. rewrite length_app. simpl. lia.
    + intros t Ht. unfold opensDeclaration.
      rewrite (absorbable_no_colon _ Ht). apply andb_false_r.
  - intros i st token final Hn Hd Hh Ha Hc IH.
    rewrite IH, (nth_error_skipn_head' _ _ _ _ Hn). cbn [filter].
    rewrite (opensDeclaration_eq token). rewrite Hd, Hh, Hc. reflexivity.
Qed.

(** X4: with a token that opens a declaration, the parsed annotation
    has a style, made of one declaration for each such token, each ending
    with a semicolon, joined by single spaces; an attribute token of the
    key [style] does not show in it.  Without such a token the style is
    the value of the last attribute token of the key [style], if any. *)
Theorem X4_declarations_take_the_style (tokens : list jsstring) :
  let declarations := cssProperties (classifyFrom tokens 0 initialState) in
  length declarations = length (filter opensDeclaration tokens)
  /\ Forall Declaration declarations
  /\ (filter opensDeclaration tokens <> [] ->
      get key_style (attributes (parseTokens tokens))
      = Some (join [ch_space] declarations))
  /\ (filter opensDeclaration tokens = [] ->
      get key_style (attributes (parseTokens tokens))
      = match lastWhere (storesKey key_style) tokens with
        | Some token => Some (attributeValue token)
        | None => None
        end).
Proof.
  cbv zeta.
  pose proof (classifyFrom_declaration_count tokens 0 initialState) as Hc.
  simpl in Hc. split; [exact Hc|]. split.
  { apply classifyFrom_declarations. constructor. }
  split.
  - intros Hne.
    assert (Hcss : cssProperties (classifyFrom tokens 0 initialState) <> []).
    { intros He. rewrite He in Hc. simpl in Hc.
      destruct (filter opensDeclaration tokens); [contradiction | discriminate]. }
    destruct (parseTokens_style tokens Hcss) as (v & Hg & _ & Hv & _).
    now rewrite Hg, Hv.
  - intros He. rewrite He in Hc. simpl in Hc.
    pose proof (classifyFrom_attribute tokens key_style
                  ltac:(discriminate) 0 initialState) as Ha.
    simpl in Ha. unfold parseTokens, addStyle.
    destruct (cssProperties (classifyFrom tokens 0 initialState)); [exact Ha|].
    discriminate.
Qed.

Lemma X4_declarations_take_the_style_witness :
  get key_style
    (attributes (parseTokens [str "style=x"; str "color:"; str "red"; str "style=y"]))
  = Some (str "color: red;")
  /\ get key_style (attributes (parseTokens [str "style=x"; str "style=y"]))
     = Some (str "y").
Proof.
  split.
  - pose proof (X4_declarations_take_the_style
                  [str "style=x"; str "color:"; str "red"; str "style=y"])
      as (_ & _ & H & _).
    apply H. discriminate.
  - pose proof (X4_declarations_take_the_style [str "style=x"; str "style=y"])
      as (_ & _ & _ & H).
    apply H. reflexivity.
Defined.

(** * More on the merge *)

Lemma get_id_applyClasses cls props :
  get key_id (applyClasses cls props) = get key_id props.
Proof.
  destruct cls; simpl; [reflexivity|]. apply get_set_other. discriminate.
Qed.

Lemma get_other_applyClasses cls props k :
  k <> key_className -> get k (applyClasses cls props) = get k props.
Proof.
  intros Hk. destruct cls; simpl; [reflexivity|]. now apply get_set_other.
Qed.

Lemma get_other_applyId i props k :
  k <> key_id -> get k (applyId i props) = get k props.
Proof.
  intros Hk. destruct i as [[|c v]|]; simpl; try reflexivity. now apply get_set_other.
Qed.

Lemma propertiesOf_applyAttributes tag properties children attrs :
  propertiesOf (fst (applyAttributes (Element tag properties children) attrs))
  = fst (applyEntries (attributes attrs)
           (applyId (id attrs)
              (applyClasses (classes attrs) (propertiesOrEmpty properties)))).
Proof.
  unfold applyAttributes. now destruct (applyEntries _ _).
Qed.

Lemma snd_applyAttributes tag properties children attrs :
  snd (applyAttributes (Element tag properties children) attrs)
  = snd (applyEntries (attributes attrs)
           (applyId (id attrs)
              (applyClasses (classes attrs) (propertiesOrEmpty properties)))).
Proof.
  unfold applyAttributes. now destruct (applyEntries _ _).
Qed.

(** X5: when no attribute token has the key [id], a parsed id that is
    not empty becomes the id of the target, whatever it was; no parsed
    id, or the empty id of a lone hash, leaves the id as it was. *)
Theorem X5_id_replaced_unless_empty (tag : jsstring)
    (properties : option Properties) (children : list Node)
    (attrs : ParsedAttributes) :
  get key_id (attributes attrs) = None ->
  let after :=
    propertiesOf (fst (applyAttributes (Element tag properties children) attrs)) in
  (forall i, id attrs = Some i -> i <> [] ->
             get key_id after = Some (PString i))
  /\ (id attrs = None \/ id attrs = Some [] ->
      get key_id after = get key_id (propertiesOrEmpty properties)).
Proof.
  intros Hk. cbv zeta. rewrite propertiesOf_applyAttributes.
  rewrite applyEntries_other by (now apply get_None_keys).
  split.
  - intros i Hi Hne. rewrite Hi. destruct i as [|c v]; [contradiction|].
    simpl. apply get_set_same.
  - intros [Hi|Hi]; rewrite Hi; simpl; apply get_id_applyClasses.
Qed.

Lemma X5_id_replaced_unless_empty_witness :
  get key_id
    (propertiesOf
       (fst (applyAttributes
               (Element (str "div") (Some [(key_id, PString (str "old"))]) [])
               (parseAttributes (str "#new")))))
  = Some (PString (str "new"))
  /\ get key_id
       (propertiesOf
          (fst (applyAttributes
                  (Element (str "div") (Some [(key_id, PString (str "old"))]) [])
                  (parseAttributes (str "#")))))
     = Some (PString (str "old")).
Proof.
  split.
  - apply (proj1 (X5_id_replaced_unless_empty (str "div")
                    (Some [(key_id, PString (str "old"))]) []
                    (parseAttributes (str "#new")) eq_refl) (str "new") eq_refl).
    discriminate.
  - apply (proj2 (X5_id_replaced_unless_empty (str "div")
                    (Some [(key_id, PString (str "old"))]) []
                    (parseAttributes (str "#")) eq_refl)).
    right. reflexivity.
Defined.

(** X6: when the existing style of the target is a string or absent,
    the merge ends normally and every parsed attribute of a key other
    than [style] and [__proto__] is the property of that key afterwards,
    whatever the target held there and whatever the classes and the id
    wrote there before. *)
Theorem X6_attributes_overwrite (tag : jsstring)
    (properties : option Properties) (children : list Node)
    (attributeString key value existing : jsstring) :
  ExistingStyle properties existing ->
  get key (attributes (parseAttributes attributeString)) = Some value ->
  key <> key_style ->
  key <> key_proto ->
  let merged :=
    applyAttributes (Element tag properties children)
      (parseAttributes attributeString) in
  snd merged = Normal
  /\ get key (propertiesOf (fst merged)) = Some (PString value).
Proof.
  intros Hex Hv Hs Hp. cbv zeta.
  rewrite propertiesOf_applyAttributes, snd_applyAttributes.
  set (attrs := parseAttributes attributeString) in *.
  set (props := applyId (id attrs)
                  (applyClasses (classes attrs) (propertiesOrEmpty properties))).
  assert (Hex' : ExistingStyle (Some props) existing).
  { assert (Hg : get key_style props = get key_style (propertiesOrEmpty properties)).
    { unfold props. now rewrite get_style_applyId, get_style_applyClasses. }
    inversion Hex as [H|s H]; subst.
    - apply existing_absent. simpl. congruence.
    - apply existing_string. simpl. congruence. }
  destruct (applyEntries_get (attributes attrs) props existing
              (parseTokens_NoDup _) Hex') as [Hc Hget].
  split; [exact Hc|]. rewrite Hget, Hv.
  destruct (string_eqb key key_style) eqn:E1.
  { apply string_eqb_eq in E1. contradiction. }
  destruct (string_eqb key key_proto) eqn:E2.
  { apply string_eqb_eq in E2. contradiction. }
  reflexivity.
Qed.

Lemma X6_attributes_overwrite_witness :
  get key_className
    (propertiesOf
       (fst (applyAttributes
               (Element (str "div") (Some [(key_className, PString (str "old"))]) [])
               (parseAttributes (str ".a className=b")))))
  = Some (PString (str "b")).
Proof.
  apply (proj2 (X6_attributes_overwrite (str "div")
                  (Some [(key_className, PString (str "old"))]) []
                  (str ".a className=b") key_className (str "b") []
                  (existing_absent (Some [(key_className, PString (str "old"))]) eq_refl)
                  eq_refl ltac:(discriminate) ltac:(discriminate))).
Defined.

(** X7: the merge writes no property but [className], [id] and the
    keys of the parsed attributes: any other property of the target is
    afterwards what it was, and so are its tag and its children, also
    when the merge throws. *)
Theorem X7_other_properties_kept (tag : jsstring)
    (properties : option Properties) (children : list Node)
    (attrs : ParsedAttributes) (key : jsstring) :
  key <> key_className ->
  key <> key_id ->
  get key (attributes attrs) = None ->
  let after := fst (applyAttributes (Element tag properties children) attrs) in
  get key (propertiesOf after) = get key (propertiesOrEmpty properties)
  /\ withoutProperties after = Element tag None children.
Proof.
  intros Hc Hi Hk. cbv zeta. split.
  - rewrite propertiesOf_applyAttributes.
    rewrite applyEntries_other by (now apply get_None_keys).
    now rewrite get_other_applyId, get_other_applyClasses.
  - apply (applyAttributes_propertiesOnly attrs (Element tag properties children)).
Qed.

Lemma X7_other_properties_kept_witness :
  get (str "title")
    (propertiesOf
       (fst (applyAttributes
               (Element (str "p") (Some [(str "title", PString (str "t"))]) [])
               (parseAttributes (str ".a #b color: red lang=en")))))
  = Some (PString (str "t")).
Proof.
  apply (proj1 (X7_other_properties_kept (str "p")
                  (Some [(str "title", PString (str "t"))]) []
                  (parseAttributes (str ".a #b color: red lang=en")) (str "title")
                  ltac:(discriminate) ltac:(discriminate) eq_refl)).
Defined.

(** With an array under [style] and a style among the entries, the
    loop throws and the array is still there. *)
Lemma applyEntries_array_style entries props items v :
  get key_style entries = Some v ->
  get key_style props = Some (PArray items) ->
  snd (applyEntries entries props) = TypeError
  /\ get key_style (fst (applyEntries entries props)) = Some (PArray items).
Proof.
  revert props. induction entries as [|[key value] rest IH]; intros props Hv Ha.
  - discriminate.
  - cbn [applyEntries]. cbn [get] in Hv.
    destruct (string_eqb key key_style) eqn:E.
    + rewrite Ha. simpl. auto.
    + apply string_eqb_neq in E. apply IH; [exact Hv|].
      rewrite get_assign_other by congruence. exact Ha.
Qed.

(** X8: when the target holds an array under [style] and the parsed
    annotation has a style, the merge throws a [TypeError] and the array
    is left under [style]. *)
Theorem X8_array_style_throws (tag : jsstring)
    (properties : option Properties) (children : list Node)
    (attrs : ParsedAttributes) (v : jsstring) (items : list jsstring) :
  get key_style (attributes attrs) = Some v ->
  get key_style (propertiesOrEmpty properties) = Some (PArray items) ->
  let merged := applyAttributes (Element tag properties children) attrs in
  snd merged = TypeError
  /\ get key_style (propertiesOf (fst merged)) = Some (PArray items).
Proof.
  intros Hv Ha. cbv zeta.
  rewrite propertiesOf_applyAttributes, snd_applyAttributes.
  apply (applyEntries_array_style _ _ items v Hv).
  now rewrite get_style_applyId, get_style_applyClasses.
Qed.

Lemma X8_array_style_throws_witness :
  snd (applyAttributes
         (Element (str "p") (Some [(key_style, PArray [str "a"])]) [])
         (parseAttributes (str ".x color: red")))
  = TypeError.
Proof.
  apply (proj1 (X8_array_style_throws (str "p")
                  (Some [(key_style, PArray [str "a"])]) []
                  (parseAttributes (str ".x color: red")) (str "color: red;")
                  [str "a"] eq_refl eq_refl)).
Defined.

(** * More on the target and the visit *)

(** X9: the reference that the resolver returns stands for a node of
    the tree, and that node is an element: the previous sibling, the
    sole child or the parent, never a text. *)
Theorem X9_target_is_an_element (parent : Node) (index : nat) (ref : TargetRef) :
  getTargetElement parent index = Some ref ->
  exists tag props cs, deref parent ref = Some (Element tag props cs).
Proof. apply getTargetElement_deref. Qed.

Lemma X9_target_is_an_element_witness :
  exists tag props cs,
    deref postElementParagraph (ChildAt 0) = Some (Element tag props cs).
Proof.
  apply (X9_target_is_an_element postElementParagraph 1 (ChildAt 0) eq_refl).
Defined.

Lemma nth_error_prunedChildren_before index v cs k :
  k < index ->
  nth_error (prunedChildren index v cs) k = nth_error cs k.
Proof.
  intros Hk. unfold prunedChildren. destruct (isEmpty v).
  - now apply nth_error_removeAt_before.
  - apply nth_error_replaceAt_other. lia.
Qed.

(** X10: an annotation at the start of a text that follows an element
    goes to that element, whether the text is kept or pruned: after the
    visit the previous sibling is what the effect of the annotation
    makes of it. *)
Theorem X10_annotation_after_an_element (parent : Node) (index : nat)
    (value body rest tag : jsstring) (props : option Properties)
    (cs : list Node) :
  nth_error (childrenOf parent) (S index) = Some (Text value) ->
  nth_error (childrenOf parent) index = Some (Element tag props cs) ->
  value = ch_lbrace :: body ++ ch_rbrace :: rest ->
  ~ In ch_rbrace body ->
  nth_error (childrenOf (fst (onVisit (S index) parent))) index
  = Some (fst (effectOf body (Element tag props cs)))
  /\ snd (onVisit (S index) parent) = snd (effectOf body (Element tag props cs)).
Proof.
  intros Hn Hprev Hv Hb.
  assert (Hm : attributeRegex value = Some (body, rest))
    by (apply attributeRegex_Some; auto).
  assert (Hh : hasChildren parent = true)
    by (eapply nth_error_hasChildren; eauto).
  rewrite (onVisit_match _ _ _ _ _ Hn Hm). cbv zeta.
  rewrite stripAndPrune_eq.
  set (pruned := setChildren parent
                   (prunedChildren (S index) (trim rest) (childrenOf parent))).
  assert (Hc : childrenOf pruned
               = prunedChildren (S index) (trim rest) (childrenOf parent))
    by (apply childrenOf_setChildren, Hh).
  assert (Hp : nth_error (childrenOf pruned) index = Some (Element tag props cs)).
  { rewrite Hc, nth_error_prunedChildren_before by lia. exact Hprev. }
  assert (Ht : getTargetElement pruned (S index) = Some (ChildAt index)).
  { unfold getTargetElement.
    replace (S index - 1) with index by lia.
    unfold elementAt at 1. rewrite Hp. simpl isElement.
    assert (Hl : 0 < length (childrenOf pruned)).
    { assert (index < length (childrenOf pruned))
        by (apply nth_error_Some; congruence). lia. }
    apply Nat.ltb_lt in Hl. rewrite Hl. reflexivity. }
  rewrite Ht. split.
  - apply (deref_mutateAt pruned (ChildAt index) _ _ Hp).
  - apply (snd_mutateAt_deref pruned (ChildAt index) _ _ Hp).
Qed.

Lemma X10_annotation_after_an_element_witness :
  nth_error (childrenOf (fst (onVisit 1 postElementParagraph))) 0
  = Some (styled "strong" "color: red; font-weight: 900;" [txt "Important text"]).
Proof.
  apply (proj1 (X10_annotation_after_an_element postElementParagraph 0
                  (str "{color: red; font-weight: 900;} that needs attention")
                  (str "color: red; font-weight: 900;") (str " that needs attention")
                  (str "strong") (Some []) [txt "Important text"]
                  eq_refl eq_refl eq_refl ltac:(not_in_string))).
Defined.

(** X11: an annotation at the start of the first child, with text left
    after it, goes to the parent when the parent is an element, and
    nowhere under a root; the children are the old ones with the text
    stripped. *)
Theorem X11_annotation_in_first_child_with_text (parent : Node)
    (value body rest : jsstring) :
  nth_error (childrenOf parent) 0 = Some (Text value) ->
  value = ch_lbrace :: body ++ ch_rbrace :: rest ->
  ~ In ch_rbrace body ->
  trim rest <> [] ->
  let stripped :=
    setChildren parent (replaceAt 0 (Text (trim rest)) (childrenOf parent)) in
  onVisit 0 parent
  = if isElement parent then effectOf body stripped else (stripped, Normal).
Proof.
  intros Hn Hv Hb Hne. cbv zeta.
  assert (Hm : attributeRegex value = Some (body, rest))
    by (apply attributeRegex_Some; auto).
  assert (Hh : hasChildren parent = true)
    by (eapply nth_error_hasChildren; eauto).
  rewrite (onVisit_match _ _ _ _ _ Hn Hm). cbv zeta.
  rewrite stripAndPrune_eq. unfold prunedChildren.
  destruct (trim rest) as [|c t] eqn:Et; [contradiction|]. simpl isEmpty. cbv iota.
  set (stripped := setChildren parent (replaceAt 0 (Text (c :: t)) (childrenOf parent))).
  assert (Hc : childrenOf stripped = replaceAt 0 (Text (c :: t)) (childrenOf parent))
    by (apply childrenOf_setChildren, Hh).
  assert (Ht : getTargetElement stripped 0
               = if isElement parent then Some TheParent else None).
  { unfold getTargetElement. rewrite Hc.
    destruct (childrenOf parent) as [|first others]; [discriminate|].
    simpl. unfold stripped. now rewrite isElement_setChildren. }
  rewrite Ht. destruct (isElement parent); reflexivity.
Qed.

Lemma X11_annotation_in_first_child_with_text_witness :
  onVisit 0 (el "p" [ txt "{font-size: 18px;}First"; el "span" [txt "Second"] ])
  = (styled "p" "font-size: 18px;" [ txt "First"; el "span" [txt "Second"] ], Normal).
Proof.
  apply (X11_annotation_in_first_child_with_text
           (el "p" [ txt "{font-size: 18px;}First"; el "span" [txt "Second"] ])
           (str "{font-size: 18px;}First") (str "font-size: 18px;") (str "First")
           eq_refl eq_refl ltac:(not_in_string) ltac:(discriminate)).
Defined.

(** * When the visit throws, and the earlier visitor *)








(** X13: the visitor of [src/index.ts] puts the text between the
    braces, as it stands, under [style] of its target, in place of any
    style there; the other properties, the tag and the children of the
    target stay, and the visit never throws. *)
Theorem X13_earlier_visitor_replaces_style (parent : Node) (index : nat)
    (value body rest : jsstring) (ref : TargetRef) (tag : jsstring)
    (props : option Properties) (cs : list Node) :
  nth_error (childrenOf parent) index = Some (Text value) ->
  value = ch_lbrace :: body ++ ch_rbrace :: rest ->
  ~ In ch_rbrace body ->
  let pruned :=
    setChildren parent
      (if isEmpty (trim rest) then removeAt index (childrenOf parent)
       else replaceAt index (Text (trim rest)) (childrenOf parent)) in
  SrcIndex.target pruned index = Some ref ->
  deref pruned ref = Some (Element tag props cs) ->
  exists props',
    deref (fst (SrcIndex.onVisit index parent)) ref
    = Some (Element tag (Some props') cs)
    /\ get key_style props' = Some (PString body)
    /\ (forall k, k <> key_style ->
                  get k props' = get k (propertiesOrEmpty props))
    /\ snd (SrcIndex.onVisit index parent) = Normal.
Proof.
  intros Hn Hv Hb pruned Ht Hd.
  assert (Hm : attributeRegex value = Some (body, rest))
    by (apply attributeRegex_Some; auto).
  assert (Hp : stripAndPrune parent index (trim rest) = pruned)
    by apply stripAndPrune_eq.
  rewrite (SrcIndex_onVisit_match _ _ _ _ _ Hn Hm). cbv zeta. rewrite Hp, Ht.
  rewrite (deref_mutateAt _ _ _ _ Hd), (snd_mutateAt_deref _ _ _ _ Hd). simpl.
  eexists. split; [reflexivity|]. split; [apply get_set_same|].
  split; [|reflexivity]. intros k Hk. now apply get_set_other.
Qed.

Lemma X13_earlier_visitor_replaces_style_witness :
  exists props',
    deref (fst (SrcIndex.onVisit 0 styledParagraph)) TheParent
    = Some (Element (str "p") (Some props') [txt "Text content"])
    /\ get key_style props' = Some (PString (str "color: red; font-size: 14px;")).
Proof.
  destruct (X13_earlier_visitor_replaces_style styledParagraph 0
              (str "{color: red; font-size: 14px;}Text content")
              (str "color: red; font-size: 14px;") (str "Text content")
              TheParent (str "p") (Some [(key_style, PString (str "margin: 10px;"))])
              [txt "Text content"]
              eq_refl eq_refl ltac:(not_in_string) eq_refl eq_refl)
    as (props' & H1 & H2 & _).
  exists props'. auto.
Defined.

(** X14: the choice of target of [src/index.ts] and [getTargetElement]
    agree on every parent with at most one child, whenever the previous
    sibling is an element, and whenever the first child is not an
    element; in what is left, a first child that is an element among
    several children, the earlier visitor takes that child. *)
Theorem X14_two_resolvers_compared (parent : Node) (index : nat) :
  (length (childrenOf parent) <= 1 ->
   SrcIndex.target parent index = getTargetElement parent index)
  /\ (previousIsElement parent index ->
      SrcIndex.target parent index = getTargetElement parent index)
  /\ (elementAt (childrenOf parent) 0 = false ->
      SrcIndex.target parent index = getTargetElement parent index)
  /\ (~ previousIsElement parent index ->
      elementAt (childrenOf parent) 0 = true ->
      SrcIndex.target parent index = Some (ChildAt 0)).
Proof.
  unfold SrcIndex.target, getTargetElement.
  destruct (negb (index =? 0) && (0 <? length (childrenOf parent))
            && elementAt (childrenOf parent) (index - 1)) eqn:E1.
  - repeat split; try reflexivity.
    intros Hn _. exfalso. apply Hn. now apply previousIsElement_iff.
  - split; [|split; [|split]].
    + intros Hl. destruct (elementAt (childrenOf parent) 0) eqn:E0; [|reflexivity].
      destruct (childrenOf parent) as [|c [|c' cs]]; try discriminate.
      * reflexivity.
      * simpl in Hl. lia.
    + intros Hp. apply previousIsElement_iff in Hp. congruence.
    + intros E0. now rewrite E0.
    + intros _ E0. now rewrite E0.
Qed.

Lemma X14_two_resolvers_compared_witness :
  SrcIndex.target postElementParagraph 1 = getTargetElement postElementParagraph 1
  /\ SrcIndex.target (el "div" [ el "em" []; txt "b"; txt "c" ]) 2 = Some (ChildAt 0).
Proof.
  split.
  - apply (proj1 (proj2 (X14_two_resolvers_compared postElementParagraph 1))).
    split; [lia|]. exists (el "strong" [txt "Important text"]).
    split; reflexivity.
  - apply (proj2 (proj2 (proj2 (X14_two_resolvers_compared
                                  (el "div" [ el "em" []; txt "b"; txt "c" ]) 2)))).
    + intros (_ & n & Hn & He). vm_compute in Hn. injection Hn as <-. discriminate.
    + reflexivity.
Defined.

(** X15: on a tree in which no text starts with an annotation the
    transformer is the identity: it returns the tree as it was and ends
    normally. *)
Theorem X15_transformer_identity_without_annotation (tree : Node) :
  annotationFree tree = true ->
  rehypeStyling tree = (tree, Normal).
Proof. apply rehypeStyling_annotationFree. Qed.

Lemma X15_transformer_identity_without_annotation_witness :
  rehypeStyling (Root [middleParagraph; unterminatedParagraph])
  = (Root [middleParagraph; unterminatedParagraph], Normal).
Proof.
  apply (X15_transformer_identity_without_annotation
           (Root [middleParagraph; unterminatedParagraph])).
  vm_compute. reflexivity.
Defined.

(** * The tokenizer on strings without quotes, the pattern, shapeless tokens *)

Lemma isPlain_quoteFree c : isQuote c = false -> isPlain c = negb (isWhiteSpace c).
Proof.
  unfold isQuote, isPlain. intros H. apply orb_false_iff in H as [H1 H2].
  rewrite H1, H2. simpl. now rewrite !andb_true_r.
Qed.

Lemma span_all p s : Forall (fun c => p c = true) (fst (span p s)).
Proof.
  induction s as [|c s IH]; simpl; [constructor|].
  destruct (p c) eqn:E; [|constructor].
  destruct (span p s) as [run rest]. simpl in *. now constructor.
Qed.

Lemma span_none p s rest : span p s = ([], rest) -> rest = s.
Proof.
  intros H. pose proof (span_app p s) as Ha. rewrite H in Ha. now simpl in Ha.
Qed.

Lemma quotedRun_quoteFree q s :
  isQuote q = true -> quoteFree s -> quotedRun q s = None.
Proof.
  intros Hq Hs. unfold quotedRun. destruct s as [|c s]; [reflexivity|].
  destruct (N.eqb c q) eqn:E; [|reflexivity].
  apply N.eqb_eq in E. subst c.
  rewrite (Hs q (or_introl eq_refl)) in Hq. discriminate.
Qed.

Lemma matchAlternative_quoteFree s :
  quoteFree s ->
  matchAlternative s
  = match span isPlain s with
    | (c :: run, rest) => Some (c :: run, rest)
    | ([], _) => None
    end.
Proof.
  intros Hs. unfold matchAlternative.
  destruct (span isPlain s) as [[|c run] rest]; [|reflexivity].
  now rewrite !quotedRun_quoteFree.
Qed.

Lemma quoteFree_suffix (a b : jsstring) : quoteFree (a ++ b) -> quoteFree b.
Proof. intros H c Hc. apply H, in_or_app. now right. Qed.

(** Without quotes a token is one run of characters that are not white
    space. *)
Lemma matchToken_quoteFree s fuel :
  quoteFree s -> matchToken (S fuel) s = span isPlain s.
Proof.
  intros Hs. cbn [matchToken]. rewrite (matchAlternative_quoteFree _ Hs).
  pose proof (span_app isPlain s) as Happ.
  destruct (span isPlain s) as [[|c run] rest] eqn:Es.
  - now rewrite (span_none _ _ _ Es).
  - simpl in Happ.
    assert (Hrest : matchToken fuel rest = ([], rest)).
    { destruct fuel as [|fuel]; [reflexivity|]. cbn [matchToken].
      rewrite matchAlternative_quoteFree
        by (rewrite Happ in Hs; apply (quoteFree_suffix (c :: run) rest Hs)).
      destruct rest as [|x rest']; [reflexivity|].
      apply span_stop in Es. simpl. now rewrite Es. }
    rewrite Hrest. now rewrite app_nil_r.
Qed.

Lemma splitWhen_nonempty p s : splitWhen p s <> [].
Proof.
  destruct s as [|x s]; simpl; [discriminate|].
  destruct (p x); [discriminate|]. destruct (splitWhen p s); discriminate.
Qed.

Lemma splitWhen_run p (run rest : jsstring) :
  Forall (fun c => p c = false) run ->
  splitWhen p (run ++ rest)
  = match splitWhen p rest with
    | q :: qs => (run ++ q) :: qs
    | [] => [run]
    end.
Proof.
  induction 1 as [|c run Hc _ IH]; simpl.
  - destruct (splitWhen p rest) as [|q qs] eqn:E; [|reflexivity].
    now apply splitWhen_nonempty in E.
  - rewrite Hc, IH. destruct (splitWhen p rest) as [|q qs] eqn:E; [|reflexivity].
    now apply splitWhen_nonempty in E.
Qed.

Lemma splitOnWhiteSpace_space c s :
  isWhiteSpace c = true -> splitOnWhiteSpace (c :: s) = splitOnWhiteSpace s.
Proof. intros H. unfold splitOnWhiteSpace. simpl. now rewrite H. Qed.

Lemma splitOnWhiteSpace_run (c : char) (run rest : jsstring) :
  Forall (fun x => isWhiteSpace x = false) (c :: run) ->
  (forall x rest', rest = x :: rest' -> isWhiteSpace x = true) ->
  splitOnWhiteSpace ((c :: run) ++ rest) = (c :: run) :: splitOnWhiteSpace rest.
Proof.
  intros Hrun Hrest. unfold splitOnWhiteSpace.
  rewrite (splitWhen_run isWhiteSpace (c :: run) rest Hrun).
  destruct rest as [|x rest'].
  - simpl. now rewrite app_nil_r.
  - simpl. rewrite (Hrest x rest' eq_refl). simpl. now rewrite app_nil_r.
Qed.

Lemma matchAll_quoteFree fuel s :
  quoteFree s -> length s <= fuel -> matchAll fuel s = splitOnWhiteSpace s.
Proof.
  revert s. induction fuel as [|fuel IH]; intros s Hs Hl.
  - destruct s; [reflexivity | simpl in Hl; lia].
  - destruct s as [|c s']; [reflexivity|].
    cbn [matchAll]. change (length (c :: s')) with (S (length s')).
    rewrite (matchToken_quoteFree (c :: s') (length s') Hs).
    pose proof (span_app isPlain (c :: s')) as Happ.
    pose proof (span_all isPlain (c :: s')) as Hall.
    destruct (span isPlain (c :: s')) as [[|x run] rest] eqn:Es.
    + assert (Hc : isWhiteSpace c = true).
      { simpl in Es. destruct (isPlain c) eqn:Ep.
        - destruct (span isPlain s'); discriminate.
        - rewrite isPlain_quoteFree in Ep by (apply Hs; now left).
          now apply negb_false_iff in Ep. }
      rewrite (splitOnWhiteSpace_space c s' Hc).
      apply IH; [|simpl in Hl; lia].
      intros y Hy. apply Hs. now right.
    + simpl fst in *. simpl snd in *.
      assert (Hq : quoteFree rest).
      { rewrite Happ in Hs. apply (quoteFree_suffix (x :: run) rest Hs). }
      rewrite Happ. rewrite splitOnWhiteSpace_run.
      * f_equal. apply IH; [exact Hq|].
        apply (f_equal (@length char)) in Happ. rewrite length_app in Happ.
        simpl in Happ, Hl. lia.
      * rewrite Forall_forall in *. intros y Hy.
        specialize (Hall y Hy). rewrite isPlain_quoteFree in Hall.
        -- now apply negb_true_iff in Hall.
        -- apply Hs. rewrite Happ. apply in_or_app. now left.
      * intros y rest' ->. apply span_stop in Es.
        rewrite isPlain_quoteFree in Es by (apply Hq; now left).
        now apply negb_false_iff in Es.
Qed.

(** X16: on a string without quote characters the tokens are the
    pieces between the runs of white space, in order, none of them
    empty. *)
Theorem X16_tokens_without_quotes (attributeString : jsstring) :
  quoteFree attributeString ->
  tokenize attributeString = splitOnWhiteSpace attributeString.
Proof.
  intros Hs. apply matchAll_quoteFree; [exact Hs | reflexivity].
Qed.

Lemma X16_tokens_without_quotes_witness :
  tokenize (str ".card  #main color: blue;")
  = [str ".card"; str "#main"; str "color:"; str "blue;"].
Proof.
  apply (X16_tokens_without_quotes (str ".card  #main color: blue;")).
  intros c Hc. simpl in Hc.
  repeat (destruct Hc as [<-|Hc]; [reflexivity|]). destruct Hc.
Defined.

(** X17: the annotation pattern matches exactly the values made of an
    opening brace, a body without closing brace, a closing brace and a
    rest: the body is captured up to the first closing brace, the rest
    is what the replacement leaves, and a value without closing brace
    after an opening brace at its start does not match. *)
Theorem X17_annotation_pattern (value : jsstring) :
  (forall body rest,
      attributeRegex value = Some (body, rest)
      <-> value = ch_lbrace :: body ++ ch_rbrace :: rest /\ ~ In ch_rbrace body)
  /\ (attributeRegex value = None
      <-> forall body rest, value <> ch_lbrace :: body ++ ch_rbrace :: rest).
Proof.
  split.
  - intros body rest. apply attributeRegex_Some.
  - apply attributeRegex_None.
Qed.

(** X18: tokens of none of the four shapes are dropped: an annotation
    made of such tokens only parses to no class, no id and no
    attribute. *)
Theorem X18_shapeless_tokens_dropped (tokens : list jsstring) :
  Forall shapeless tokens ->
  parseTokens tokens = {| classes := []; id := None; attributes := [] |}.
Proof.
  intros Hall.
  assert (H : forall i st,
             Forall shapeless (skipn i tokens) -> classifyFrom tokens i st = st).
  { apply (classifyFrom_run tokens
             (fun i st final => Forall shapeless (skipn i tokens) -> final = st)).
    - reflexivity.
    - intros i st token final Hn Hd _ Hs.
      rewrite (nth_error_skipn_head' _ _ _ _ Hn) in Hs.
      inversion Hs as [|? ? (H1 & _) _]; subst. congruence.
    - intros i st token final Hn Hd Hh _ Hs.
      rewrite (nth_error_skipn_head' _ _ _ _ Hn) in Hs.
      inversion Hs as [|? ? (_ & H2 & _) _]; subst. congruence.
    - intros i st token final Hn Hd Hh Ha _ Hs.
      rewrite (nth_error_skipn_head' _ _ _ _ Hn) in Hs.
      inversion Hs as [|? ? (_ & _ & H3 & _) _]; subst.
      unfold isAttributeToken in Ha. rewrite H3 in Ha. discriminate.
    - intros i st token final Hn Hd Hh Ha Hc _ Hs.
      rewrite (nth_error_skipn_head' _ _ _ _ Hn) in Hs.
      inversion Hs as [|? ? (_ & _ & _ & H4) _]; subst. congruence.
    - intros i st token final Hn Hd Hh Ha Hc IH Hs.
      rewrite (nth_error_skipn_head' _ _ _ _ Hn) in Hs.
      inversion Hs; subst. now apply IH. }
  unfold parseTokens. rewrite (H 0 initialState Hall). reflexivity.
Qed.

Lemma X18_shapeless_tokens_dropped_witness :
  parseTokens [str "hello"; str "world"]
  = {| classes := []; id := None; attributes := [] |}.
Proof.
  apply (X18_shapeless_tokens_dropped [str "hello"; str "world"]).
  repeat constructor.
Defined.

(** * Quoted values *)

Lemma span_until q (body rest : jsstring) :
  ~ In q body ->
  span (fun x => negb (N.eqb x q)) (body ++ q :: rest) = (body, q :: rest).
Proof.
  induction body as [|c body IH]; simpl; intros Hn.
  - now rewrite N.eqb_refl.
  - destruct (N.eqb c q) eqn:E.
    + apply N.eqb_eq in E. exfalso. apply Hn. now left.
    + simpl. rewrite IH; [reflexivity|]. intros H. apply Hn. now right.
Qed.

Lemma quotedRun_closed q (body rest : jsstring) :
  ~ In q body ->
  quotedRun q (q :: body ++ q :: rest) = Some (q :: body ++ [q], rest).
Proof.
  intros Hn. unfold quotedRun. rewrite N.eqb_refl.
  now rewrite (span_until q body rest Hn).
Qed.

Lemma isQuote_not_plain q : isQuote q = true -> isPlain q = false.
Proof.
  unfold isQuote, isPlain. intros H. apply orb_true_iff in H as [H|H]; rewrite H.
  - now rewrite andb_false_r.
  - apply andb_false_r.
Qed.

Lemma span_plain_prefix (prefix rest : jsstring) q :
  Forall (fun c => isPlain c = true) prefix ->
  isPlain q = false ->
  span isPlain (prefix ++ q :: rest) = (prefix, q :: rest).
Proof.
  intros Hp Hq. induction Hp as [|c prefix Hc _ IH]; simpl.
  - now rewrite Hq.
  - now rewrite Hc, IH.
Qed.

Lemma matchAlternative_quoted q (body rest : jsstring) :
  isQuote q = true -> ~ In q body ->
  matchAlternative (q :: body ++ q :: rest) = Some (q :: body ++ [q], rest).
Proof.
  intros Hq Hn. unfold matchAlternative.
  cbn [span]. rewrite (isQuote_not_plain q Hq).
  unfold isQuote in Hq. apply orb_true_iff in Hq as [Hq|Hq]; apply N.eqb_eq in Hq.
  - subst q. now rewrite quotedRun_closed.
  - subst q. cbn [quotedRun]. change (N.eqb ch_squote ch_dquote) with false.
    cbv iota. now apply quotedRun_closed.
Qed.

Lemma matchToken_S fuel s :
  matchToken (S fuel) s
  = match matchAlternative s with
    | None => ([], s)
    | Some (piece, rest) =>
        let (more, rest') := matchToken fuel rest in (piece ++ more, rest')
    end.
Proof. reflexivity. Qed.

Lemma matchAll_S_cons fuel c s' :
  matchAll (S fuel) (c :: s')
  = match matchToken (length (c :: s')) (c :: s') with
    | ([], _) => matchAll fuel s'
    | (token, rest) => token :: matchAll fuel rest
    end.
Proof. reflexivity. Qed.

(** A run of plain characters and a closed quoted run after it make one
    token. *)
Lemma tokenize_quoted (prefix body : jsstring) (q : char) :
  isQuote q = true ->
  Forall (fun c => isPlain c = true) prefix ->
  ~ In q body ->
  tokenize (prefix ++ q :: body ++ [q]) = [prefix ++ q :: body ++ [q]].
Proof.
  intros Hq Hp Hn. unfold tokenize.
  assert (Hquoted : forall fuel,
             matchToken (S fuel) (q :: body ++ [q]) = (q :: body ++ [q], [])).
  { intros fuel. rewrite matchToken_S, (matchAlternative_quoted q body [] Hq Hn).
    destruct fuel; simpl; now rewrite app_nil_r. }
  assert (Hwhole : forall fuel,
             matchToken (S (S fuel)) (prefix ++ q :: body ++ [q])
             = (prefix ++ q :: body ++ [q], [])).
  { intros fuel. destruct prefix as [|c prefix]; [apply Hquoted|].
    rewrite matchToken_S. unfold matchAlternative.
    rewrite (span_plain_prefix (c :: prefix) (body ++ [q]) q Hp
               (isQuote_not_plain q Hq)).
    now rewrite Hquoted. }
  remember (prefix ++ q :: body ++ [q]) as s eqn:Es.
  assert (Hlen : length s = S (S (length prefix + length body))).
  { rewrite Es, length_app. simpl. rewrite length_app. simpl. lia. }
  assert (Hm : matchToken (length s) s = (s, [])).
  { rewrite Hlen. apply Hwhole. }
  rewrite Hlen. rewrite Hlen in Hm.
  destruct s as [|x s']; [discriminate Hlen|].
  rewrite matchAll_S_cons. simpl length. 
  replace (S (length s')) with (S (S (length prefix + length body)))
    by (simpl in Hlen; lia).
  rewrite Hm. reflexivity.
Qed.

(** X19: a quoted run is kept whole: a run of characters that are
    neither white space nor quotes, then a quote, a body without that
    quote (white space and the other quote allowed) and the same quote
    again, make a single token. *)
Theorem X19_quoted_run_is_one_token (prefix body : jsstring) (q : char) :
  isQuote q = true ->
  Forall (fun c => isPlain c = true) prefix ->
  ~ In q body ->
  tokenize (prefix ++ q :: body ++ [q]) = [prefix ++ q :: body ++ [q]].
Proof. apply tokenize_quoted. Qed.

Lemma X19_quoted_run_is_one_token_witness :
  tokenize (str "title='a b  c'") = [str "title='a b  c'"].
Proof.
  apply (X19_quoted_run_is_one_token (str "title=") (str "a b  c") ch_squote).
  - reflexivity.
  - repeat constructor.
  - not_in_string.
Defined.

Lemma includes_In c s : includes c s = true <-> In c s.
Proof.
  unfold includes. rewrite existsb_exists. split.
  - intros (x & Hx & E). apply N.eqb_eq in E. now subst.
  - intros H. exists c. split; [exact H | apply N.eqb_refl].
Qed.

Lemma includes_false c s : ~ In c s -> includes c s = false.
Proof.
  intros H. destruct (includes c s) eqn:E; [|reflexivity].
  apply includes_In in E. contradiction.
Qed.

Lemma unquote_closed q (body : jsstring) :
  isQuote q = true ->
  withoutTrailingQuote (withoutLeadingQuote (q :: body ++ [q])) = body.
Proof.
  intros Hq. unfold withoutLeadingQuote at 1. rewrite Hq.
  unfold withoutTrailingQuote. rewrite rev_app_distr. simpl.
  rewrite Hq. apply rev_involutive.
Qed.

(** X20: an annotation of the form key, equals sign, quoted value
    parses to the one attribute of that key with the value without its
    quotes, white space in it kept, when neither the key nor the value
    has a colon; the key has neither white space nor quote nor equals
    sign, starts with neither dot nor hash, and is not [__proto__]. *)
Theorem X20_quoted_attribute (key body : jsstring) (q : char) :
  isQuote q = true ->
  Forall (fun c => isPlain c = true) key ->
  startsWith ch_dot key = false ->
  startsWith ch_hash key = false ->
  ~ In ch_equals key ->
  ~ In ch_colon key ->
  ~ In ch_colon body ->
  ~ In q body ->
  key <> key_proto ->
  parseAttributes (key ++ ch_equals :: q :: body ++ [q])
  = {| classes := []; id := None; attributes := [(key, body)] |}.
Proof.
  intros Hq Hplain Hd Hh He Hc Hcb Hn Hp.
  set (token := key ++ ch_equals :: q :: body ++ [q]).
  assert (Htok : tokenize token = [token]).
  { unfold token.
    change (key ++ ch_equals :: q :: body ++ [q])
      with (key ++ [ch_equals] ++ q :: body ++ [q]).
    rewrite app_assoc. apply tokenize_quoted; [exact Hq| |exact Hn].
    apply Forall_app. split; [exact Hplain | repeat constructor]. }
  unfold parseAttributes, parseTokens. rewrite Htok.
  assert (Hdot : startsWith ch_dot token = false).
  { unfold token. destruct key; [reflexivity | exact Hd]. }
  assert (Hhash : startsWith ch_hash token = false).
  { unfold token. destruct key; [reflexivity | exact Hh]. }
  assert (Hattr : isAttributeToken token = true).
  { unfold isAttributeToken. apply andb_true_iff. split.
    - apply includes_In. unfold token. apply in_or_app. right. now left.
    - apply negb_true_iff, includes_false. unfold token. intros Hin.
      apply in_app_or in Hin as [Hin|[Hin|[Hin|Hin]]].
      + now apply Hc.
      + discriminate.
      + subst q. discriminate.
      + apply in_app_or in Hin as [Hin|[Hin|[]]]; [now apply Hcb|].
        subst q. discriminate. }
  rewrite (classifyFrom_step [token] 0 initialState token eq_refl).
  rewrite Hdot, Hhash, Hattr.
  rewrite (classifyFrom_end [token] 1 _ eq_refl).
  unfold token at 1 2. rewrite attributeKey_first, attributeValue_first by exact He.
  rewrite (unquote_closed q body Hq).
  unfold addStyle, setAttribute, assign. simpl.
  destruct (string_eqb key key_proto) eqn:E; [|reflexivity].
  apply string_eqb_eq in E. contradiction.
Qed.

Lemma X20_quoted_attribute_witness :
  parseAttributes (str "title='a b  c'")
  = {| classes := []; id := None; attributes := [(str "title", str "a b  c")] |}.
Proof.
  apply (X20_quoted_attribute (str "title") (str "a b  c") ch_squote).
  - reflexivity.
  - repeat constructor.
  - reflexivity.
  - reflexivity.
  - not_in_string.
  - not_in_string.
  - not_in_string.
  - not_in_string.
  - discriminate.
Defined.
